(** * Address-book service: the indexed in-memory contact store

    A shallow embedding of [models/contact.py] and [storage/memory_store.py]
    (with the one-record body of [ContactService.create_contacts]) and the
    properties of the store: index maintenance, search, update and delete.

    Modelling conventions.
    - A Python [str] is a [string] whose characters are code points below 256;
      [py_lower], [py_isspace], [py_strip], [py_split] follow Python on that
      range.
    - A [Contact] instance is a mutable object: it lives in an object heap and
      the store's primary dictionary holds a reference to it, exactly as
      [self._contacts[contact.id] = contact] does.
    - Dictionary subscripts and [del] raise [KeyError] on a missing key; the
      methods run in a small state-and-exception monad, in which an
      exception leaves the changes made before it in place.
    - A [Contact] object is modelled by its four data attributes, and the
      values given to them are of type [str]. [hasattr] and [setattr] also
      reach the methods and the special attributes of the class:
      [setattr] raises for [__class__], [__dict__] and [__weakref__], and
      for every other such name it would add an entry to the object's own
      dictionary, which the model does not hold; it then stops with
      [InstanceAttribute], which no theorem takes for a result of the code.
    - Python's iteration order over sets and dictionaries is not modelled:
      results that come out of such an iteration are stated up to
      permutation. *)

From Stdlib Require Import String Ascii.
From stdpp Require Import gmap strings list fin_maps.

#[local] Set Warnings "-clear-no-such-hyp".

Local Open Scope string_scope.
Local Open Scope list_scope.
Local Open Scope nat_scope.
Local Open Scope stdpp_scope.

(** ** Python strings *)

(** [ord(c)] *)
Definition ord (a : ascii) : nat := nat_of_ascii a.

(** [str.isspace] on one character, code points below 256. *)
Definition py_isspace (a : ascii) : bool :=
  let n := ord a in
  (((9 <=? n) && (n <=? 13)) || ((28 <=? n) && (n <=? 32))
   || (n =? 133) || (n =? 160))%nat.

(** [str.lower] on one character, code points below 256. *)
Definition lower_char (a : ascii) : ascii :=
  let n := ord a in
  if (((65 <=? n) && (n <=? 90))
      || ((192 <=? n) && (n <=? 222) && negb (n =? 215)))%nat
  then ascii_of_nat (n + 32) else a.

Fixpoint py_lower (s : string) : string :=
  match s with
  | EmptyString => EmptyString
  | String a s' => String (lower_char a) (py_lower s')
  end.

Fixpoint lstrip (s : string) : string :=
  match s with
  | EmptyString => EmptyString
  | String a s' => if py_isspace a then lstrip s' else s
  end.

(** Removes trailing whitespace: a character is dropped when it is
    whitespace and everything after it has been dropped. *)
Fixpoint rstrip (s : string) : string :=
  match s with
  | EmptyString => EmptyString
  | String a s' =>
      match rstrip s' with
      | EmptyString => if py_isspace a then EmptyString else String a EmptyString
      | r => String a r
      end
  end.

(** [s.strip()] *)
Definition py_strip (s : string) : string := rstrip (lstrip s).

Definition flush (cur : string) : list string :=
  match cur with EmptyString => [] | _ => [cur] end.

Fixpoint split_from (cur : string) (s : string) : list string :=
  match s with
  | EmptyString => flush cur
  | String a s' =>
      if py_isspace a then flush cur ++ split_from EmptyString s'
      else split_from (cur +:+ String a EmptyString) s'
  end.

(** [s.split()]: the maximal runs of non-whitespace characters. *)
Definition py_split (s : string) : list string := split_from EmptyString s.

(** [q in s] on strings: [q] occurs in [s] as a contiguous substring. *)
Fixpoint py_in (q s : string) : bool :=
  String.prefix q s
  || match s with
     | EmptyString => false
     | String _ s' => py_in q s'
     end.

(** A string all of whose characters are whitespace (the empty one too). *)
Fixpoint all_space (s : string) : bool :=
  match s with
  | EmptyString => true
  | String a s' => py_isspace a && all_space s'
  end.

(** ** Exceptions *)

(** What a method of the store can raise. [InstanceAttribute] is not an
    exception of Python: it marks the one place where the code goes on and
    the model cannot, an assignment that adds an attribute to an object's
    own dictionary (see [Contact.setattr]). *)
Inductive exc : Type :=
| KeyError (key : string)                  (* [d[k]], [del d[k]]: no such key *)
| SetattrTypeError (field : string)        (* [TypeError] raised by [setattr] *)
| SetattrAttributeError (field : string)   (* [AttributeError] raised by [setattr] *)
| InstanceAttribute (field : string).

(** ** models/contact.py *)

Module Contact.

(** The dataclass's four fields, after [__post_init__] ([id] is a string
    from then on). *)
Record t : Type := mk { name : string; phone : string; email : string; id : string }.

#[global] Instance t_inhabited : Inhabited t :=
  populate (mk EmptyString EmptyString EmptyString EmptyString).

(** The data attributes, and the methods the class defines under an
    ordinary name. *)
Definition fields : list string := ["name"; "phone"; "email"; "id"].
Definition methods : list string := ["to_dict"; "update_fields"].

Definition is_field (field : string) : bool := bool_decide (field ∈ fields).

(** A name of the form [__x__]. The special attributes of an object
    ([__class__], [__dict__], [__doc__], [__eq__], [__init__],
    [__post_init__], ...) all have such names. *)
Definition is_special (field : string) : bool :=
  String.prefix "__" field && String.prefix "__" (String.rev field).

(** [hasattr(self, field)]: the data attributes, the methods and the
    special attributes. Which names of the form [__x__] an object has
    depends on the interpreter; the model takes every such name for an
    attribute, and [setattr] below does not follow the code on any of them
    but the three for which it raises. A name of any other form is an
    attribute only if it is a field or a method. *)
Definition hasattr (field : string) : bool :=
  is_field field || bool_decide (field ∈ methods) || is_special field.

(** The record after an assignment to a data attribute. *)
Definition assign (c : t) (field value : string) : t :=
  if String.eqb field "name" then mk value (phone c) (email c) (id c)
  else if String.eqb field "phone" then mk (name c) value (email c) (id c)
  else if String.eqb field "email" then mk (name c) (phone c) value (id c)
  else if String.eqb field "id" then mk (name c) (phone c) (email c) value
  else c.

(** [setattr(self, field, value)] for a [value] of type [str].
    - A data attribute takes the value.
    - [__class__] and [__dict__] are attributes of the type that accept a
      class and a dictionary only: [TypeError]. [__weakref__] is not
      writable: [AttributeError].
    - Any other name gets an entry in the object's own dictionary. For
      [update_fields] and [to_dict] that entry hides the method from then
      on, so that a later [contact.update_fields(...)] calls a [str]. The
      record has no place for such entries: [InstanceAttribute]. *)
Definition setattr (c : t) (field value : string) : exc + t :=
  if is_field field then inr (assign c field value)
  else if bool_decide (field ∈ ["__class__"; "__dict__"]) then inl (SetattrTypeError field)
  else if String.eqb field "__weakref__" then inl (SetattrAttributeError field)
  else inl (InstanceAttribute field).

(** The names on which [update_fields] does not reach a [setattr] that
    the record cannot follow: the fields, and the names of no attribute. *)
Definition plain (field : string) : bool := is_field field || negb (hasattr field).

(** The test of [update_fields]'s loop: [hasattr(self, field) and
    field != 'id']. *)
Definition to_set (field : string) : bool :=
  hasattr field && negb (String.eqb field "id").

(** The fields [update_fields] leaves when every [setattr] of its loop has
    returned: the keywords [name], [phone] and [email] are assigned in
    their order, the keyword [id] is skipped, and so is a keyword that
    names no attribute. *)
Definition set_field (c : t) (kv : string * string) : t :=
  if is_field kv.1 && negb (String.eqb kv.1 "id")
  then assign c kv.1 kv.2 else c.
Definition set_fields (c : t) (kwargs : list (string * string)) : t :=
  foldl set_field c kwargs.

(** [__post_init__]: a missing id is replaced by [str(uuid.uuid4())],
    whose value [uuid4] comes from the environment. *)
Definition post_init (uuid4 : string) (i : option string) : string :=
  match i with None => uuid4 | Some i => i end.

End Contact.

(** ** The object heap and the store's state *)

(** A reference to a [Contact] object. *)
Abbreviation loc := nat.

Record World : Type := mkWorld {
  heap : list Contact.t;                       (* the Contact objects *)
  _contacts : gmap string loc;                 (* ID -> Contact *)
  _name_index : gmap string (gset string);     (* name_word -> set of contact_ids *)
  _phone_index : gmap string string;           (* phone -> contact_id *)
  _email_index : gmap string string;           (* email -> contact_id *)
}.

(** [MemoryStore()] with no object allocated. *)
Definition empty_store : World := mkWorld [] ∅ ∅ ∅ ∅.

Definition set_heap (f : list Contact.t → list Contact.t) (w : World) : World :=
  mkWorld (f (heap w)) (_contacts w) (_name_index w) (_phone_index w) (_email_index w).
Definition set_contacts (f : gmap string loc → gmap string loc) (w : World) : World :=
  mkWorld (heap w) (f (_contacts w)) (_name_index w) (_phone_index w) (_email_index w).
Definition set_name_index (f : gmap string (gset string) → gmap string (gset string))
    (w : World) : World :=
  mkWorld (heap w) (_contacts w) (f (_name_index w)) (_phone_index w) (_email_index w).
Definition set_phone_index (f : gmap string string → gmap string string) (w : World) : World :=
  mkWorld (heap w) (_contacts w) (_name_index w) (f (_phone_index w)) (_email_index w).
Definition set_email_index (f : gmap string string → gmap string string) (w : World) : World :=
  mkWorld (heap w) (_contacts w) (_name_index w) (_phone_index w) (f (_email_index w)).

(** The object a reference denotes. The references the store holds are
    inside the heap ([heap_ok], part of the invariant); the lookup is made
    total, a reference outside the heap reading as the empty contact. *)
Definition deref (r : loc) (w : World) : Contact.t := heap w !!! r.

(** ** The monad of the methods: state and exceptions *)

(** A method returns a value or raises; either way it leaves a state. *)
Definition Py (A : Type) : Type := World → (exc * World) + (A * World).

Definition py_ret {A} (a : A) : Py A := λ w, inr (a, w).
Definition py_bind {A B} (m : Py A) (k : A → Py B) : Py B :=
  λ w, match m w with
       | inl e => inl e
       | inr (a, w') => k a w'
       end.

#[global] Instance Py_ret : MRet Py := @py_ret.
#[global] Instance Py_bind : MBind Py := λ A B k m, py_bind m k.

Definition gets {A} (f : World → A) : Py A := λ w, inr (f w, w).
Definition modify (f : World → World) : Py unit := λ w, inr (tt, f w).
Definition raise {A} (e : exc) : Py A := λ w, inl (e, w).

(** [k in d] *)
Definition dict_contains {V} (d : gmap string V) (k : string) : bool :=
  bool_decide (is_Some (d !! k)).

(** [d[k]] *)
Definition dict_getitem {V} (d : World → gmap string V) (k : string) : Py V :=
  λ w, match d w !! k with
       | Some v => inr (v, w)
       | None => inl (KeyError k, w)
       end.

(** [del d[k]] *)
Definition dict_delitem {V} (d : World → gmap string V)
    (set : (gmap string V → gmap string V) → World → World) (k : string) : Py unit :=
  λ w, match d w !! k with
       | Some _ => inr (tt, set (delete k) w)
       | None => inl (KeyError k, w)
       end.

(** [for x in l: body] *)
Fixpoint for_ {A} (l : list A) (body : A → Py unit) : Py unit :=
  match l with
  | [] => py_ret tt
  | x :: l' => body x;; for_ l' body
  end.

(** [Contact(name, phone, email, id)]: a new object. *)
Definition Contact_new (uuid4 : string) (name phone email : string) (i : option string)
    : Py loc :=
  λ w, inr (length (heap w),
            set_heap (λ h, h ++ [Contact.mk name phone email (Contact.post_init uuid4 i)]) w).

(** [setattr(contact, field, value)] on the object behind [contact]; also
    what an assignment [contact.field = value] does. *)
Definition setattr (contact : loc) (field value : string) : Py unit :=
  c ← gets (deref contact);
  match Contact.setattr c field value with
  | inr c' => modify (set_heap (λ h, <[contact := c']> h))
  | inl e => raise e
  end.

(** [contact.update_fields] with keyword arguments; [kwargs] holds them in
    their order. *)
Definition update_fields (contact : loc) (kwargs : list (string * string)) : Py unit :=
  for_ kwargs (λ kv,
    if Contact.to_set kv.1 then setattr contact kv.1 kv.2 else mret tt).

(** ** storage/memory_store.py *)

(** [_update_indexes(contact)] *)
Definition _update_indexes (contact : loc) : Py unit :=
  c ← gets (deref contact);
  let name_words := py_split (py_lower (Contact.name c)) in
  for_ name_words (λ word,
    name_index ← gets _name_index;
    (if negb (dict_contains name_index word)
     then modify (set_name_index <[word := ∅]>)
     else mret tt);;
    ids ← dict_getitem _name_index word;
    modify (set_name_index <[word := ids ∪ {[Contact.id c]}]>));;
  modify (set_phone_index <[Contact.phone c := Contact.id c]>);;
  modify (set_email_index <[py_lower (Contact.email c) := Contact.id c]>).

(** [_remove_from_indexes(contact)] *)
Definition _remove_from_indexes (contact : loc) : Py unit :=
  c ← gets (deref contact);
  let name_words := py_split (py_lower (Contact.name c)) in
  for_ name_words (λ word,
    name_index ← gets _name_index;
    if dict_contains name_index word then
      ids ← dict_getitem _name_index word;
      modify (set_name_index <[word := ids ∖ {[Contact.id c]}]>);;
      ids ← dict_getitem _name_index word;
      if bool_decide (ids = ∅)
      then dict_delitem _name_index set_name_index word
      else mret tt
    else mret tt);;
  phone_index ← gets _phone_index;
  (if dict_contains phone_index (Contact.phone c)
   then dict_delitem _phone_index set_phone_index (Contact.phone c)
   else mret tt);;
  email_index ← gets _email_index;
  (if dict_contains email_index (py_lower (Contact.email c))
   then dict_delitem _email_index set_email_index (py_lower (Contact.email c))
   else mret tt).

(** [create_contact(contact)] *)
Definition create_contact (contact : loc) : Py loc :=
  c ← gets (deref contact);
  modify (set_contacts <[Contact.id c := contact]>);;
  _update_indexes contact;;
  mret contact.

(** [get_contact(contact_id)]: [self._contacts.get(contact_id)]. *)
Definition get_contact (contact_id : string) : Py (option loc) :=
  gets (λ w, _contacts w !! contact_id).

(** [update_contact(contact_id, **updates)] *)
Definition update_contact (contact_id : string) (updates : list (string * string))
    : Py (option loc) :=
  found ← gets (λ w, _contacts w !! contact_id);
  match found with
  | None => mret None
  | Some contact =>
      _remove_from_indexes contact;;
      update_fields contact updates;;
      _update_indexes contact;;
      mret (Some contact)
  end.

(** [delete_contact(contact_id)] *)
Definition delete_contact (contact_id : string) : Py bool :=
  found ← gets (λ w, _contacts w !! contact_id);
  match found with
  | None => mret false
  | Some contact =>
      _remove_from_indexes contact;;
      dict_delitem _contacts set_contacts contact_id;;
      mret true
  end.

(** The three scans of [search_contacts], each a loop over [items()]. *)
Definition scan_names (q : string) (acc : gset string) (kv : string * gset string)
    : gset string :=
  if py_in q (py_lower kv.1) then acc ∪ kv.2 else acc.
Definition scan_phones (q : string) (acc : gset string) (kv : string * string)
    : gset string :=
  if py_in q kv.1 then acc ∪ {[kv.2]} else acc.
Definition scan_emails (q : string) (acc : gset string) (kv : string * string)
    : gset string :=
  if py_in q (py_lower kv.1) then acc ∪ {[kv.2]} else acc.

Definition matching_ids (q : string) (w : World) : gset string :=
  let m := foldl (scan_names q) ∅ (map_to_list (_name_index w)) in
  let m := foldl (scan_phones q) m (map_to_list (_phone_index w)) in
  foldl (scan_emails q) m (map_to_list (_email_index w)).

(** [[self._contacts[i] for i in ids if i in self._contacts]] *)
Fixpoint fetch (ids : list string) : Py (list loc) :=
  match ids with
  | [] => mret []
  | contact_id :: rest =>
      contacts ← gets _contacts;
      if dict_contains contacts contact_id then
        contact ← dict_getitem _contacts contact_id;
        found ← fetch rest;
        mret (contact :: found)
      else fetch rest
  end.

(** [search_contacts(query)] *)
Definition search_contacts (query : string) : Py (list loc) :=
  let query_lower := py_strip (py_lower query) in
  if bool_decide (query_lower = EmptyString) then mret []
  else
    ids ← gets (matching_ids query_lower);
    fetch (elements ids).

(** [get_all_contacts()]: [list(self._contacts.values())]. *)
Definition get_all_contacts : Py (list loc) :=
  gets (λ w, (map_to_list (_contacts w)).*2).

(** One record of [ContactService.create_contacts]: build the [Contact]
    (no id given, so [uuid4] is drawn) and store it. *)
Definition create (uuid4 : string) (name phone email : string) : Py loc :=
  contact ← Contact_new uuid4 name phone email None;
  create_contact contact.

(** The fields of the contacts behind a list of references. *)
Definition contents (w : World) (rs : list loc) : list Contact.t :=
  (λ r, deref r w) <$> rs.

(** A caller's attribute assignment [contact.field = value] on a reference
    it holds; no method of the store is involved. *)
Definition caller_setattr (contact : loc) (field value : string) : Py unit :=
  setattr contact field value.

(** ** The store as a map of values, and what the methods do to it *)

(** The name tokens and the e-mail key of a contact, as the index
    methods compute them. *)
Definition words (c : Contact.t) : list string := py_split (py_lower (Contact.name c)).
Definition email_key (c : Contact.t) : string := py_lower (Contact.email c).

(** The primary map seen as id -> Contact value. *)
Definition primary (w : World) : gmap string Contact.t :=
  (λ r, deref r w) <$> _contacts w.

(** The ids a name-index key leads to (none for a missing key). *)
Definition ids_of (ni : gmap string (gset string)) (t : string) : gset string :=
  default ∅ (ni !! t).

(** Net effect of one iteration of the loop of [_update_indexes]. *)
Definition add_word (i : string) (ni : gmap string (gset string)) (word : string)
    : gmap string (gset string) :=
  <[word := ids_of ni word ∪ {[i]}]> ni.

(** Net effect of one iteration of the loop of [_remove_from_indexes]. *)
Definition del_word (i : string) (ni : gmap string (gset string)) (word : string)
    : gmap string (gset string) :=
  match ni !! word with
  | None => ni
  | Some ids =>
      if bool_decide (ids ∖ {[i]} = ∅) then delete word ni
      else <[word := ids ∖ {[i]}]> ni
  end.

Definition index_add (c : Contact.t) (w : World) : World :=
  set_email_index <[email_key c := Contact.id c]>
    (set_phone_index <[Contact.phone c := Contact.id c]>
       (set_name_index (λ ni, foldl (add_word (Contact.id c)) ni (words c)) w)).

Definition index_del (c : Contact.t) (w : World) : World :=
  set_email_index (delete (email_key c))
    (set_phone_index (delete (Contact.phone c))
       (set_name_index (λ ni, foldl (del_word (Contact.id c)) ni (words c)) w)).

(** ** The index invariant *)

(** Every reference of the primary map is an allocated object filed under
    its own id. *)
Definition heap_ok (w : World) : Prop :=
  ∀ i r, _contacts w !! i = Some r → r < length (heap w) ∧ Contact.id (deref r w) = i.

(** Index entries lead to stored contacts that still carry the key. *)
Definition name_exact (v : gmap string Contact.t) (ni : gmap string (gset string)) : Prop :=
  ∀ t j, j ∈ ids_of ni t → ∃ c, v !! j = Some c ∧ t ∈ words c.
Definition key_exact (key : Contact.t → string) (v : gmap string Contact.t)
    (idx : gmap string string) : Prop :=
  ∀ q j, idx !! q = Some j → ∃ c, v !! j = Some c ∧ key c = q.

(** Stored contacts are found under their keys. *)
Definition name_complete (v : gmap string Contact.t) (ni : gmap string (gset string)) : Prop :=
  ∀ j c t, v !! j = Some c → t ∈ words c → j ∈ ids_of ni t.
Definition key_complete (key : Contact.t → string) (v : gmap string Contact.t)
    (idx : gmap string string) : Prop :=
  ∀ j c, v !! j = Some c → idx !! key c = Some j.

(** What every run maintains. *)
Record Inv (w : World) : Prop := mkInv {
  inv_heap : heap_ok w;
  inv_name : name_exact (primary w) (_name_index w);
  inv_phone : key_exact Contact.phone (primary w) (_phone_index w);
  inv_email : key_exact email_key (primary w) (_email_index w);
  inv_name_complete : name_complete (primary w) (_name_index w);
}.

(** Every id reachable through an entry of one of the three indexes is a
    key of the primary map. *)
Definition index_sound (w : World) : Prop :=
  (∀ t ids i, _name_index w !! t = Some ids → i ∈ ids → is_Some (_contacts w !! i))
  ∧ (∀ p i, _phone_index w !! p = Some i → is_Some (_contacts w !! i))
  ∧ (∀ e i, _email_index w !! e = Some i → is_Some (_contacts w !! i)).

(** Every stored contact is reachable through each of its lowercased name
    tokens. *)
Definition reachable_by_name (w : World) : Prop :=
  ∀ i r t, _contacts w !! i = Some r → t ∈ words (deref r w) →
    ∃ ids, _name_index w !! t = Some ids ∧ i ∈ ids.



(** ** Sequences of operations *)

Inductive op : Type :=
| Create (uuid4 name phone email : string)
| Update (contact_id : string) (updates : list (string * string))
| Delete (contact_id : string).

Definition exec_op (o : op) : Py unit :=
  match o with
  | Create uuid4 name phone email => create uuid4 name phone email;; mret tt
  | Update contact_id updates => update_contact contact_id updates;; mret tt
  | Delete contact_id => delete_contact contact_id;; mret tt
  end.

Definition exec (ops : list op) : Py unit := for_ ops exec_op.

(** The ids drawn by the creations of a sequence; [uuid4] never repeats. *)
Definition created_ids (ops : list op) : list string :=
  omap (λ o, match o with Create uuid4 _ _ _ => Some uuid4 | _ => None end) ops.

(** The keywords of an update, and of the updates of a sequence, are
    all [Contact.plain]. *)
Definition plain_kwargs (updates : list (string * string)) : bool :=
  forallb (λ kv, Contact.plain kv.1) updates.
Definition plain_ops (ops : list op) : bool :=
  forallb (λ o, match o with Update _ updates => plain_kwargs updates | _ => true end) ops.

(** The keywords of an update are names of the dataclass's fields. *)
Definition field_kwargs (updates : list (string * string)) : bool :=
  forallb (λ kv, Contact.is_field kv.1) updates.


(** No stored contact of [v] has the phone string or the e-mail key of [c]. *)
Definition keys_free (c : Contact.t) (v : gmap string Contact.t) : Prop :=
  map_Forall (λ _ cj, Contact.phone cj ≠ Contact.phone c ∧ email_key cj ≠ email_key c) v.

(** The operation gives no contact a phone string or lowercased e-mail that
    another stored contact holds at that moment. *)
Definition no_collision (o : op) (w : World) : bool :=
  match o with
  | Create uuid4 name phone email =>
      bool_decide (keys_free (Contact.mk name phone email uuid4) (primary w))
  | Update contact_id updates =>
      match primary w !! contact_id with
      | None => true
      | Some c =>
          bool_decide (keys_free (Contact.set_fields c updates)
                                 (delete contact_id (primary w)))
      end
  | Delete _ => true
  end.

Fixpoint collision_free (ops : list op) (w : World) : bool :=
  match ops with
  | [] => true
  | o :: ops' =>
      no_collision o w
      && match exec_op o w with
         | inr (_, w') => collision_free ops' w'
         | inl _ => false
         end
  end.

(** ** The states the operations leave, and the stores of the examples *)

(** The state after a successful [update_contact] on the object [r]. *)
Definition updated (r : loc) (updates : list (string * string)) (w : World) : World :=
  let w1 := index_del (deref r w) w in
  let w2 := set_heap (λ h, <[r := Contact.set_fields (deref r w1) updates]> h) w1 in
  index_add (deref r w2) w2.

(** The state [create] leaves, see [create_eq]. *)
Definition created (c : Contact.t) (w : World) : World :=
  index_add c (set_contacts <[Contact.id c := length (heap w)]>
                 (set_heap (λ h, h ++ [c]) w)).

(** The state a successful [delete_contact] leaves, see [delete_contact_eq]. *)
Definition deleted (i : string) (r : loc) (w : World) : World :=
  set_contacts (delete i) (index_del (deref r w) w).

(** Stored contacts are found under their phone string and e-mail key. *)
Definition complete (w : World) : Prop :=
  key_complete Contact.phone (primary w) (_phone_index w)
  ∧ key_complete email_key (primary w) (_email_index w).

(** The state an operation leaves. *)
Definition next (o : op) (w : World) : World :=
  match o with
  | Create uuid4 name phone email => created (Contact.mk name phone email uuid4) w
  | Update contact_id updates =>
      match _contacts w !! contact_id with
      | None => w
      | Some r => updated r updates w
      end
  | Delete contact_id =>
      match _contacts w !! contact_id with
      | None => w
      | Some r => deleted contact_id r w
      end
  end.

(** A run in which two contacts share a phone string. *)
Definition shared_phone_run : list op :=
  [Create "id-1" "Ann Lee" "5551234567" "ann@x.com";
   Create "id-2" "Bob Ray" "5551234567" "bob@x.com"].


(** A store whose only contact has an e-mail that contains the surname, and
    the same store after the rename. *)
Definition smith_mail : World :=
  next (Create "id-1" "Alice Smith" "1234567890" "a.smith@example.com") empty_store.
Definition smith_mail_renamed : World :=
  next (Update "id-1" [("name", "Carol Jones")]) smith_mail.

(** A store with two contacts. *)
Definition two_contacts : World :=
  next (Create "id-2" "Bob Jones" "2345678901" "bob@example.com")
    (next (Create "id-1" "Alice Smith" "1234567890" "alice@example.com") empty_store).

(** A store with one contact. *)
Definition one_contact : World :=
  next (Create "id-1" "Alice Smith" "1234567890" "alice@example.com") empty_store.

(** ** States of a running store, and what a query matches *)

(** The states the store goes through: those a sequence of create, update
    and delete operations leaves, starting from the empty store, the
    creations drawing pairwise distinct ids. *)
Definition reachable (w : World) : Prop :=
  ∃ ops, NoDup (created_ids ops) ∧ exec ops empty_store = inr (tt, w).

(** The same, along a sequence that never gives a contact a phone string or
    lowercased e-mail another stored contact holds. *)
Definition reachable_distinct (w : World) : Prop :=
  ∃ ops, NoDup (created_ids ops) ∧ collision_free ops empty_store = true
         ∧ exec ops empty_store = inr (tt, w).

(** [query_lower] of [search_contacts]. *)
Definition query_lower (query : string) : string := py_strip (py_lower query).

(** The lowercased query occurs in a lowercased word of the name, in the
    phone string or in the lowercased e-mail. *)
Definition matches (q : string) (c : Contact.t) : bool :=
  existsb (py_in q) (words c)
  || py_in q (Contact.phone c)
  || py_in q (py_lower (Contact.email c)).

(** [create_contact(Contact(name, phone, email, id=i))]: a contact built
    with an explicit id ([__post_init__] draws none). *)
Definition create_with_id (i name phone email : string) : Py loc :=
  contact ← Contact_new EmptyString name phone email (Some i);
  create_contact contact.

(** A string that is empty or starts with a non-whitespace character. *)
Definition starts_nonspace (s : string) : Prop :=
  match s with
  | EmptyString => True
  | String a _ => py_isspace a = false
  end.

(** A store in which two contacts share a phone string. *)
Definition shared_phone_store : World :=
  next (Create "id-2" "Bob Ray" "5551234567" "bob@x.com")
    (next (Create "id-1" "Ann Lee" "5551234567" "ann@x.com") empty_store).

(** ** More of Python's strings *)

(** [s.split(sep)] for a one-character separator: the pieces between the
    occurrences of [sep], empty pieces included. *)
Fixpoint py_split_on (sep : ascii) (s : string) : list string :=
  match s with
  | EmptyString => [EmptyString]
  | String a s' =>
      if Ascii.eqb a sep then EmptyString :: py_split_on sep s'
      else match py_split_on sep s' with
           | [] => [String a EmptyString]
           | piece :: pieces => String a piece :: pieces
           end
  end.

(** [l[-1]] of a list of strings that [split] returned. *)
Definition last_piece (l : list string) : string := List.last l EmptyString.

(** [s.replace(c, '')] for a one-character [c]. *)
Fixpoint remove_char (c : ascii) (s : string) : string :=
  match s with
  | EmptyString => EmptyString
  | String a s' => if Ascii.eqb a c then remove_char c s' else String a (remove_char c s')
  end.

(** [str.isdigit] on one character, code points below 256: the decimal
    digits and the superscripts two, three and one. *)
Definition isdigit_char (a : ascii) : bool :=
  let n := ord a in
  ((48 <=? n) && (n <=? 57)) || (n =? 178) || (n =? 179) || (n =? 185).

Fixpoint all_digits (s : string) : bool :=
  match s with
  | EmptyString => true
  | String a s' => isdigit_char a && all_digits s'
  end.

(** [s.isdigit()]: at least one character, all of them digits. *)
Definition py_isdigit (s : string) : bool :=
  match s with EmptyString => false | _ => all_digits s end.

(** The character [c] occurs in [s]. *)
Fixpoint has_char (c : ascii) (s : string) : bool :=
  match s with
  | EmptyString => false
  | String a s' => Ascii.eqb a c || has_char c s'
  end.

(** The separators [_validate_phone] removes. *)
Definition is_separator (a : ascii) : bool :=
  Ascii.eqb a "-" || Ascii.eqb a " " || Ascii.eqb a "(" || Ascii.eqb a ")".

Fixpoint count_digits (s : string) : nat :=
  match s with
  | EmptyString => 0
  | String a s' => (if isdigit_char a then 1 else 0) + count_digits s'
  end.

Fixpoint digits_and_separators (s : string) : bool :=
  match s with
  | EmptyString => true
  | String a s' => (isdigit_char a || is_separator a) && digits_and_separators s'
  end.

(** ** services/contact_service.py *)

(** A value of type [Any] as the service looks at it: a [str], or a value
    of another type, of which the service only uses what [str()] shows of it
    (in a message) and whether it can be hashed (as a dictionary key). *)
Inductive pyval : Type :=
| PStr (s : string)
| POther (shown : string) (hashable : bool).

(** A [Dict[str, Any]]: its items in insertion order, the keys distinct. *)
Abbreviation pydict := (list (string * pyval)).

(** The exceptions that can leave a method of the service: [ValueError] with
    its message, a [TypeError] (an operation on a value of the wrong type),
    or an exception of a dictionary or of the store. *)
Inductive sexc : Type :=
| ValueError (msg : string)
| TypeError
| Uncaught (e : exc).

(** The monad of the service's methods: an exception leaves the changes
    made so far in place. *)
Definition Svc (A : Type) : Type := World → (sexc + A) * World.

Definition svc_ret {A} (a : A) : Svc A := λ w, (inr a, w).
Definition svc_bind {A B} (m : Svc A) (k : A → Svc B) : Svc B :=
  λ w, match m w with
       | (inl e, w') => (inl e, w')
       | (inr a, w') => k a w'
       end.

#[global] Instance Svc_ret : MRet Svc := @svc_ret.
#[global] Instance Svc_bind : MBind Svc := λ A B k m, svc_bind m k.

Definition svc_raise {A} (e : sexc) : Svc A := λ w, (inl e, w).

(** A call of a method of the store. The service catches nothing: an
    exception of the store passes through, with the state the store was
    left in. *)
Definition call {A} (m : Py A) : Svc A :=
  λ w, match m w with
       | inr (a, w') => (inr a, w')
       | inl (e, w') => (inl (Uncaught e), w')
       end.

(** [d.get(k)], [k in d] and [d[k]] on a [Dict[str, Any]]. *)
Fixpoint item (d : pydict) (k : string) : option pyval :=
  match d with
  | [] => None
  | (k', v) :: d' => if String.eqb k' k then Some v else item d' k
  end.

Definition has_key (d : pydict) (k : string) : bool :=
  match item d k with Some _ => true | None => false end.

Definition getitem (d : pydict) (k : string) : Svc pyval :=
  match item d k with
  | Some v => svc_ret v
  | None => svc_raise (Uncaught (KeyError k))
  end.

(** [not isinstance(value, str) or not value.strip()] *)
Definition not_a_nonempty_string (value : pyval) : bool :=
  match value with
  | PStr s => bool_decide (py_strip s = EmptyString)
  | POther _ _ => true
  end.

(** The value where a [str] is expected. *)
Definition the_str (value : pyval) : Svc string :=
  match value with
  | PStr s => svc_ret s
  | POther _ _ => svc_raise TypeError
  end.

(** [str(value)], as an f-string shows it. *)
Definition shown_as (value : pyval) : string :=
  match value with PStr s => s | POther shown _ => shown end.

Module ContactService.

(** ['@' not in email or '.' not in email.split('@')[-1]] *)
Definition bad_email (email : string) : bool :=
  negb (py_in "@" email) || negb (py_in "." (last_piece (py_split_on "@" email))).

(** [_validate_email(email)] *)
Definition _validate_email (email : pyval) : Svc unit :=
  email ← the_str email;
  if bad_email email
  then svc_raise (ValueError ("Invalid email format: " +:+ email))
  else mret tt.

(** [phone.replace('-', '').replace(' ', '').replace('(', '').replace(')', '')] *)
Definition clean_phone (phone : string) : string :=
  remove_char ")" (remove_char "(" (remove_char " " (remove_char "-" phone))).

(** [not clean_phone.isdigit() or len(clean_phone) < 10] *)
Definition bad_phone (phone : string) : bool :=
  negb (py_isdigit (clean_phone phone)) || (String.length (clean_phone phone) <? 10).

(** [_validate_phone(phone)] *)
Definition _validate_phone (phone : pyval) : Svc unit :=
  phone ← the_str phone;
  if bad_phone phone
  then svc_raise (ValueError ("Invalid phone format: " +:+ phone))
  else mret tt.

(** The loop of [_validate_contact_data] over the required fields. *)
Fixpoint check_required (required_fields : list string) (contact_data : pydict) : Svc unit :=
  match required_fields with
  | [] => mret tt
  | field :: rest =>
      if negb (has_key contact_data field)
      then svc_raise (ValueError ("Missing required field: " +:+ field))
      else
        value ← getitem contact_data field;
        if not_a_nonempty_string value
        then svc_raise (ValueError ("Field '" +:+ field +:+ "' must be a non-empty string"))
        else check_required rest contact_data
  end.

(** [_validate_contact_data(contact_data)] *)
Definition _validate_contact_data (contact_data : pydict) : Svc unit :=
  check_required ["name"; "phone"; "email"] contact_data;;
  email ← getitem contact_data "email";
  _validate_email email;;
  phone ← getitem contact_data "phone";
  _validate_phone phone.

(** The loop of [_validate_update_fields] over the items. *)
Fixpoint check_items (items : pydict) : Svc unit :=
  match items with
  | [] => mret tt
  | (field, value) :: rest =>
      if negb (bool_decide (field ∈ ["name"; "phone"; "email"]))
      then svc_raise (ValueError ("Invalid field for update: " +:+ field))
      else if not_a_nonempty_string value
      then svc_raise (ValueError ("Field '" +:+ field +:+ "' must be a non-empty string"))
      else check_items rest
  end.

(** [_validate_update_fields(update_fields)] *)
Definition _validate_update_fields (update_fields : pydict) : Svc unit :=
  check_items update_fields;;
  (if has_key update_fields "email"
   then email ← getitem update_fields "email"; _validate_email email
   else mret tt);;
  (if has_key update_fields "phone"
   then phone ← getitem update_fields "phone"; _validate_phone phone
   else mret tt).

(** The body of the loop of [create_contacts]; [uuid4] is the id drawn for
    this record. *)
Definition create_one (uuid4 : string) (contact_data : pydict) : Svc loc :=
  _validate_contact_data contact_data;;
  name ← getitem contact_data "name";
  name ← the_str name;
  phone ← getitem contact_data "phone";
  phone ← the_str phone;
  email ← getitem contact_data "email";
  email ← the_str email;
  contact ← call (Contact_new uuid4 name phone email None);
  call (create_contact contact).

Fixpoint create_loop (records : list (string * pydict)) (created_contacts : list loc)
    : Svc (list loc) :=
  match records with
  | [] => mret created_contacts
  | (uuid4, contact_data) :: rest =>
      created_contact ← create_one uuid4 contact_data;
      create_loop rest (created_contacts ++ [created_contact])
  end.

(** [create_contacts(contact_data_list)]; each record comes with the id
    [uuid4] draws for it. *)
Definition create_contacts (contact_data_list : list (string * pydict)) : Svc (list loc) :=
  create_loop contact_data_list [].

(** The keyword arguments [**update_fields] of the call of the store. *)
Fixpoint keywords (update_fields : pydict) : Svc (list (string * string)) :=
  match update_fields with
  | [] => mret []
  | (field, value) :: rest =>
      value ← the_str value;
      kwargs ← keywords rest;
      mret ((field, value) :: kwargs)
  end.

(** The body of the loop of [update_contacts]: the updated contact, if the
    store returns one. *)
Definition update_one (update_data : pydict) : Svc (option loc) :=
  if negb (has_key update_data "id")
  then svc_raise (ValueError "Contact ID is required for update")
  else
    contact_id ← getitem update_data "id";
    current_contact ←
      match contact_id with
      | PStr i => call (get_contact i)
      | POther _ true => mret None
      | POther _ false => svc_raise TypeError
      end;
    match current_contact with
    | None =>
        svc_raise (ValueError ("Contact with ID " +:+ shown_as contact_id +:+ " not found"))
    | Some _ =>
        let update_fields := filter (λ kv, kv.1 ≠ "id") update_data in
        (if bool_decide (update_fields ≠ [])
         then _validate_update_fields update_fields
         else mret tt);;
        contact_id ← the_str contact_id;
        kwargs ← keywords update_fields;
        call (update_contact contact_id kwargs)
    end.

Fixpoint update_loop (update_data_list : list pydict) (updated_contacts : list loc)
    : Svc (list loc) :=
  match update_data_list with
  | [] => mret updated_contacts
  | update_data :: rest =>
      updated_contact ← update_one update_data;
      update_loop rest (match updated_contact with
                        | Some contact => updated_contacts ++ [contact]
                        | None => updated_contacts
                        end)
  end.

(** [update_contacts(update_data_list)] *)
Definition update_contacts (update_data_list : list pydict) : Svc (list loc) :=
  update_loop update_data_list [].

Fixpoint delete_loop (contact_ids : list string) (deleted_count : nat) : Svc nat :=
  match contact_ids with
  | [] => mret deleted_count
  | contact_id :: rest =>
      deleted ← call (delete_contact contact_id);
      delete_loop rest (if deleted : bool then deleted_count + 1 else deleted_count)
  end.

(** [delete_contacts(contact_ids)] *)
Definition delete_contacts (contact_ids : list string) : Svc nat :=
  delete_loop contact_ids 0.

(** [search_contacts(query)] *)
Definition search_contacts (query : string) : Svc (list loc) :=
  if bool_decide (query = EmptyString) || bool_decide (py_strip query = EmptyString)
  then mret []
  else call (search_contacts query).

(** [get_contact(contact_id)] and [get_all_contacts()] *)
Definition get_contact (contact_id : string) : Svc (option loc) :=
  call (get_contact contact_id).
Definition get_all_contacts : Svc (list loc) := call get_all_contacts.

End ContactService.

(** ** What the service accepts *)

(** [value.strip()] is not empty. *)
Definition nonblank (s : string) : bool := negb (bool_decide (py_strip s = EmptyString)).

(** The name, phone and e-mail of a record that has the three of them as
    non-blank strings with an accepted e-mail and phone. *)
Definition valid_record (contact_data : pydict) : option (string * string * string) :=
  match item contact_data "name", item contact_data "phone", item contact_data "email" with
  | Some (PStr name), Some (PStr phone), Some (PStr email) =>
      if nonblank name && nonblank phone && nonblank email
         && negb (ContactService.bad_email email) && negb (ContactService.bad_phone phone)
      then Some (name, phone, email) else None
  | _, _, _ => None
  end.

(** The contact of an accepted record, under the id drawn for it. *)
Definition contact_of_record (record : string * pydict) : option Contact.t :=
  match valid_record record.2 with
  | Some (name, phone, email) => Some (Contact.mk name phone email record.1)
  | None => None
  end.

(** A stored contact as the service lets it in: a non-blank name, an
    accepted e-mail and an accepted phone. *)
Definition valid_contact (c : Contact.t) : bool :=
  nonblank (Contact.name c)
  && negb (ContactService.bad_email (Contact.email c))
  && negb (ContactService.bad_phone (Contact.phone c)).

Definition all_valid (w : World) : Prop :=
  ∀ i r, _contacts w !! i = Some r → valid_contact (deref r w) = true.

(** A keyword argument the service passes to the store. *)
Definition valid_kwarg (kv : string * string) : bool :=
  if String.eqb kv.1 "name" then nonblank kv.2
  else if String.eqb kv.1 "phone" then negb (ContactService.bad_phone kv.2)
  else if String.eqb kv.1 "email" then negb (ContactService.bad_email kv.2)
  else false.

(** The items of [update_data] other than the id. *)
Definition fields_of (update_data : pydict) : pydict :=
  filter (λ kv, kv.1 ≠ "id") update_data.

(** The items as keyword arguments, when all the values are strings. *)
Fixpoint strings_of (fields : pydict) : option (list (string * string)) :=
  match fields with
  | [] => Some []
  | (field, PStr s) :: rest => (λ l, (field, s) :: l) <$> strings_of rest
  | (_, POther _ _) :: _ => None
  end.

(** The keyword arguments of an accepted set of fields. *)
Definition valid_fields (fields : pydict) : option (list (string * string)) :=
  match strings_of fields with
  | Some kwargs => if forallb valid_kwarg kwargs then Some kwargs else None
  | None => None
  end.

(** The requests the service gets, and the state each leaves (whether it
    returns or raises). *)
Inductive request : Type :=
| CreateContacts (contact_data_list : list (string * pydict))
| UpdateContacts (update_data_list : list pydict)
| DeleteContacts (contact_ids : list string)
| SearchContacts (query : string).

Definition serve (rq : request) (w : World) : World :=
  match rq with
  | CreateContacts l => (ContactService.create_contacts l w).2
  | UpdateContacts l => (ContactService.update_contacts l w).2
  | DeleteContacts l => (ContactService.delete_contacts l w).2
  | SearchContacts q => (ContactService.search_contacts q w).2
  end.

Definition serve_all (rqs : list request) (w : World) : World :=
  foldl (λ w rq, serve rq w) w rqs.

(** The dictionaries of an update request have distinct keys. *)
Definition well_formed (rq : request) : Prop :=
  match rq with
  | UpdateContacts l => Forall (λ d : pydict, NoDup d.*1) l
  | _ => True
  end.

(** The ids [uuid4] draws while a request is served, at most. *)
Definition drawn_ids (rq : request) : list string :=
  match rq with
  | CreateContacts l => l.*1
  | _ => []
  end.

(** A few requests: a creation whose second record has a bad phone, an
    update, a deletion of an unknown id and a search. *)
Definition demo_requests : list request :=
  [CreateContacts
     [("id-1", [("name", PStr "Alice Smith"); ("phone", PStr "123-456-7890");
                ("email", PStr "alice@example.com")]);
      ("id-2", [("name", PStr "Bob Jones"); ("phone", PStr "12345");
                ("email", PStr "bob@example.com")]);
      ("id-3", [("name", PStr "Carol Jones"); ("phone", PStr "3456789012");
                ("email", PStr "carol@example.com")])];
   UpdateContacts [[("id", PStr "id-1"); ("phone", PStr "(999) 999-9999")]];
   DeleteContacts ["id-9"];
   SearchContacts "alice"].

(** * Proofs *)

(** ** Python strings *)

Example py_lower_example : py_lower "Alice SMITH-42" = "alice smith-42".
Proof. reflexivity. Qed.

Example py_strip_example : py_strip "  a b  " = "a b" ∧ py_strip "   " = "".
Proof. split; reflexivity. Qed.

Example py_split_example : py_split "  Alice   Smith Jr " = ["Alice"; "Smith"; "Jr"].
Proof. reflexivity. Qed.

Example py_in_example :
  py_in "mith" "smithson" = true ∧ py_in "smiths" "smith" = false ∧ py_in "" "" = true.
Proof. by split_and!. Qed.

Example py_isspace_example :
  py_isspace (ascii_of_nat 9) = true ∧ py_isspace (ascii_of_nat 31) = true
  ∧ py_isspace (ascii_of_nat 160) = true ∧ py_isspace "a" = false.
Proof. by split_and!. Qed.

Lemma isspace_lower_char (a : ascii) : py_isspace (lower_char a) = py_isspace a.
Proof. by destruct a as [[] [] [] [] [] [] [] []]. Qed.

Lemma lower_char_idemp (a : ascii) : lower_char (lower_char a) = lower_char a.
Proof. by destruct a as [[] [] [] [] [] [] [] []]. Qed.

Lemma py_lower_idemp (s : string) : py_lower (py_lower s) = py_lower s.
Proof. induction s as [|a s IH]; simpl; [done|]. by rewrite lower_char_idemp, IH. Qed.

Lemma all_space_lower (s : string) : all_space (py_lower s) = all_space s.
Proof. induction s as [|a s IH]; simpl; [done|]. by rewrite isspace_lower_char, IH. Qed.

Lemma lstrip_all_space (s : string) : all_space s = true → lstrip s = EmptyString.
Proof.
  induction s as [|a s IH]; simpl; [done|].
  intros [Ha Hs]%andb_true_iff. rewrite Ha. by apply IH.
Qed.

Lemma strip_all_space (s : string) : all_space s = true → py_strip s = EmptyString.
Proof. intros H. unfold py_strip. by rewrite lstrip_all_space. Qed.

Lemma rstrip_empty (s : string) : rstrip s = EmptyString → all_space s = true.
Proof.
  induction s as [|a s IH]; simpl; [done|].
  destruct (rstrip s); [|done].
  destruct (py_isspace a); [|done]. intros _. by apply IH.
Qed.

Lemma all_space_lstrip (s : string) : all_space (lstrip s) = true → all_space s = true.
Proof.
  induction s as [|a s IH]; simpl; [done|].
  destruct (py_isspace a) eqn:E; simpl; [done|]. by rewrite E.
Qed.

(** [s.strip()] is empty exactly for the whitespace-only strings. *)
Lemma strip_empty_iff (s : string) : py_strip s = EmptyString ↔ all_space s = true.
Proof.
  split; [|apply strip_all_space].
  intros H. by apply all_space_lstrip, rstrip_empty.
Qed.

(** ** The monad *)

Lemma world_eta (w : World) :
  mkWorld (heap w) (_contacts w) (_name_index w) (_phone_index w) (_email_index w) = w.
Proof. by destruct w. Qed.

Lemma bind_inr {A B} (m : Py A) (k : A → Py B) (w w' : World) (a : A) :
  m w = inr (a, w') → (m ≫= k) w = k a w'.
Proof. intros H. unfold mbind, Py_bind, py_bind. by rewrite H. Qed.

Lemma bind_inl {A B} (m : Py A) (k : A → Py B) (w : World) (e : exc * World) :
  m w = inl e → (m ≫= k) w = inl e.
Proof. intros H. unfold mbind, Py_bind, py_bind. by rewrite H. Qed.

Lemma dict_contains_true {V} (d : gmap string V) (k : string) (v : V) :
  d !! k = Some v → dict_contains d k = true.
Proof. intros H. apply bool_decide_eq_true. by exists v. Qed.

Lemma dict_contains_false {V} (d : gmap string V) (k : string) :
  d !! k = None → dict_contains d k = false.
Proof. intros H. apply bool_decide_eq_false. rewrite H. by intros [? ?]. Qed.

(** A loop whose body only rewrites the name index folds that rewriting. *)
Lemma for_name_index (f : gmap string (gset string) → string → gmap string (gset string))
    (body : string → Py unit) (ws : list string) :
  (∀ x w, body x w = inr (tt, set_name_index (λ ni, f ni x) w)) →
  ∀ w, for_ ws body w = inr (tt, set_name_index (λ ni, foldl f ni ws) w).
Proof.
  intros Hbody. induction ws as [|x ws IH]; intros w; simpl.
  - unfold py_ret, set_name_index. by rewrite world_eta.
  - rewrite (bind_inr _ _ _ _ _ (Hbody x w)). by rewrite IH.
Qed.

(** ** The index methods never raise *)

Lemma update_indexes_body (i word : string) (w : World) :
  (name_index ← gets _name_index;
   (if negb (dict_contains name_index word)
    then modify (set_name_index <[word := ∅]>)
    else mret tt);;
   ids ← dict_getitem _name_index word;
   modify (set_name_index <[word := ids ∪ {[i]}]>)) w
  = inr (tt, set_name_index (λ ni, add_word i ni word) w).
Proof.
  unfold mbind, Py_bind, py_bind, gets, modify, dict_getitem, add_word, ids_of.
  destruct (_name_index w !! word) as [ids|] eqn:E.
  - rewrite (dict_contains_true _ _ _ E). simpl. rewrite E.
    unfold set_name_index; simpl. by rewrite E.
  - rewrite (dict_contains_false _ _ E). simpl.
    rewrite lookup_insert_eq. unfold set_name_index; simpl.
    by rewrite insert_insert_eq, E.
Qed.

Lemma update_indexes_eq (contact : loc) (w : World) :
  _update_indexes contact w = inr (tt, index_add (deref contact w) w).
Proof.
  unfold _update_indexes.
  rewrite (bind_inr _ _ w w (deref contact w)); [|done].
  erewrite bind_inr; [|apply (for_name_index (add_word (Contact.id (deref contact w))));
                       intros; apply update_indexes_body].
  done.
Qed.

Lemma remove_from_indexes_body (i word : string) (w : World) :
  (name_index ← gets _name_index;
   if dict_contains name_index word then
     ids ← dict_getitem _name_index word;
     modify (set_name_index <[word := ids ∖ {[i]}]>);;
     ids ← dict_getitem _name_index word;
     if bool_decide (ids = ∅)
     then dict_delitem _name_index set_name_index word
     else mret tt
   else mret tt) w
  = inr (tt, set_name_index (λ ni, del_word i ni word) w).
Proof.
  unfold mbind, Py_bind, py_bind, gets, modify, dict_getitem, dict_delitem, del_word.
  destruct (_name_index w !! word) as [ids|] eqn:E.
  - rewrite (dict_contains_true _ _ _ E). simpl. rewrite E. simpl.
    rewrite lookup_insert_eq. unfold set_name_index; simpl. rewrite E.
    destruct (bool_decide (ids ∖ {[i]} = ∅)); simpl.
    + rewrite lookup_insert_eq. by rewrite delete_insert_eq.
    + done.
  - rewrite (dict_contains_false _ _ E). simpl.
    unfold mret, Py_ret, py_ret, set_name_index. simpl.
    by rewrite E, world_eta.
Qed.

(** [if k in d: del d[k]] is the plain removal of the key. *)
Lemma guarded_del_phone (k : string) (w : World) :
  (if dict_contains (_phone_index w) k
   then dict_delitem _phone_index set_phone_index k
   else mret tt) w
  = inr (tt, set_phone_index (delete k) w).
Proof.
  unfold dict_delitem.
  destruct (_phone_index w !! k) as [v|] eqn:E.
  - rewrite (dict_contains_true _ _ _ E). by rewrite E.
  - rewrite (dict_contains_false _ _ E).
    unfold mret, Py_ret, py_ret, set_phone_index.
    rewrite delete_id by done. by rewrite world_eta.
Qed.

Lemma guarded_del_email (k : string) (w : World) :
  (if dict_contains (_email_index w) k
   then dict_delitem _email_index set_email_index k
   else mret tt) w
  = inr (tt, set_email_index (delete k) w).
Proof.
  unfold dict_delitem.
  destruct (_email_index w !! k) as [v|] eqn:E.
  - rewrite (dict_contains_true _ _ _ E). by rewrite E.
  - rewrite (dict_contains_false _ _ E).
    unfold mret, Py_ret, py_ret, set_email_index.
    rewrite delete_id by done. by rewrite world_eta.
Qed.

Lemma remove_from_indexes_eq (contact : loc) (w : World) :
  _remove_from_indexes contact w = inr (tt, index_del (deref contact w) w).
Proof.
  unfold _remove_from_indexes.
  rewrite (bind_inr _ _ w w (deref contact w)); [|done].
  erewrite bind_inr; [|apply (for_name_index (del_word (Contact.id (deref contact w))));
                       intros; apply remove_from_indexes_body].
  erewrite bind_inr; [|reflexivity]. cbv beta.
  erewrite bind_inr; [|apply guarded_del_phone].
  erewrite bind_inr; [|reflexivity]. cbv beta.
  by rewrite guarded_del_email.
Qed.

(** ** What each method returns and does *)

Lemma create_contact_eq (contact : loc) (w : World) :
  create_contact contact w
  = inr (contact, index_add (deref contact w)
                    (set_contacts <[Contact.id (deref contact w) := contact]> w)).
Proof.
  unfold create_contact.
  erewrite bind_inr; [|reflexivity]. cbv beta.
  erewrite bind_inr; [|reflexivity].
  erewrite bind_inr; [|apply update_indexes_eq].
  done.
Qed.

Lemma deref_new (c : Contact.t) (w : World) :
  deref (length (heap w)) (set_heap (λ h, h ++ [c]) w) = c.
Proof. unfold deref; simpl. by apply list_lookup_total_middle. Qed.

Lemma create_eq (uuid4 name phone email : string) (w : World) :
  create uuid4 name phone email w
  = inr (length (heap w),
         index_add (Contact.mk name phone email uuid4)
           (set_contacts <[uuid4 := length (heap w)]>
              (set_heap (λ h, h ++ [Contact.mk name phone email uuid4]) w))).
Proof.
  unfold create.
  erewrite bind_inr; [|reflexivity].
  rewrite create_contact_eq.
  change (deref (length (heap w))
            (set_heap (λ h, h ++ [Contact.mk name phone email (Contact.post_init uuid4 None)]) w))
    with (deref (length (heap w)) (set_heap (λ h, h ++ [Contact.mk name phone email uuid4]) w)).
  by rewrite deref_new.
Qed.

(** *** [update_fields]: the keywords it accepts and those it raises on *)

Lemma set_heap_deref (r : loc) (w : World) :
  set_heap (λ h, <[r := deref r w]> h) w = w.
Proof.
  unfold set_heap, deref. rewrite list_insert_id'; [apply world_eta|].
  apply list_lookup_lookup_total_lt.
Qed.

Lemma set_heap_twice (r : loc) (c1 c2 : Contact.t) (w : World) :
  set_heap (λ h, <[r := c2]> h) (set_heap (λ h, <[r := c1]> h) w)
  = set_heap (λ h, <[r := c2]> h) w.
Proof. unfold set_heap; simpl. by rewrite list_insert_insert_eq. Qed.

Lemma set_heap_outside (r : loc) (c1 c2 : Contact.t) (w : World) :
  length (heap w) ≤ r →
  set_heap (λ h, <[r := c1]> h) w = set_heap (λ h, <[r := c2]> h) w.
Proof. intros Hr. unfold set_heap. by rewrite !list_insert_ge. Qed.

Lemma deref_set_heap (r : loc) (c : Contact.t) (w : World) :
  r < length (heap w) → deref r (set_heap (λ h, <[r := c]> h) w) = c.
Proof. intros Hr. unfold deref; simpl. by apply list_lookup_total_insert_eq. Qed.

Lemma is_field_hasattr (field : string) :
  Contact.is_field field = true → Contact.hasattr field = true.
Proof. intros H. unfold Contact.hasattr. by rewrite H. Qed.

Lemma field_plain (field : string) :
  Contact.is_field field = true → Contact.plain field = true.
Proof. intros H. unfold Contact.plain. by rewrite H. Qed.

Lemma field_kwargs_plain (updates : list (string * string)) :
  field_kwargs updates = true → plain_kwargs updates = true.
Proof.
  unfold field_kwargs, plain_kwargs. rewrite !forallb_forall.
  intros H kv Hkv. by apply field_plain, H.
Qed.


Lemma setattr_field (contact : loc) (field value : string) (w : World) :
  Contact.is_field field = true →
  setattr contact field value w
  = inr (tt, set_heap (λ h, <[contact := Contact.assign (deref contact w) field value]> h) w).
Proof.
  intros H. unfold setattr. erewrite bind_inr; [|reflexivity]. cbv beta.
  unfold Contact.setattr. by rewrite H.
Qed.

Lemma setattr_raises (contact : loc) (field value : string) (w : World) :
  Contact.is_field field = false → ∃ e, setattr contact field value w = inl (e, w).
Proof.
  intros H. unfold setattr. erewrite bind_inr; [|reflexivity]. cbv beta.
  unfold Contact.setattr. rewrite H.
  destruct (bool_decide (field ∈ ["__class__"; "__dict__"])); [by eexists|].
  destruct (field =? "__weakref__")%string; by eexists.
Qed.

(** One turn of the loop on a plain keyword. *)
Lemma update_fields_body (contact : loc) (kv : string * string) (w : World) :
  Contact.plain kv.1 = true →
  (if Contact.to_set kv.1 then setattr contact kv.1 kv.2 else mret tt) w
  = inr (tt, set_heap (λ h, <[contact := Contact.set_field (deref contact w) kv]> h) w).
Proof.
  unfold Contact.plain, Contact.to_set, Contact.set_field. intros Hp.
  destruct (Contact.is_field kv.1) eqn:Ef; simpl.
  - rewrite (is_field_hasattr _ Ef). simpl.
    destruct (negb (kv.1 =? "id")%string); [by apply setattr_field|].
    by rewrite set_heap_deref.
  - simpl in Hp. apply negb_true_iff in Hp. rewrite Hp. simpl.
    by rewrite set_heap_deref.
Qed.

(** One turn of the loop on any other keyword. *)
Lemma update_fields_body_raises (contact : loc) (kv : string * string) (w : World) :
  Contact.plain kv.1 = false →
  ∃ e, (if Contact.to_set kv.1 then setattr contact kv.1 kv.2 else mret tt) w = inl (e, w).
Proof.
  unfold Contact.plain, Contact.to_set. intros Hp.
  apply orb_false_iff in Hp as [Ef Hh]. apply negb_false_iff in Hh. rewrite Hh.
  assert ((kv.1 =? "id")%string = false) as ->.
  { apply String.eqb_neq. intros Hid. by rewrite Hid in Ef. }
  simpl. by apply setattr_raises.
Qed.

Lemma update_fields_eq (contact : loc) (kwargs : list (string * string)) :
  plain_kwargs kwargs = true →
  ∀ w, update_fields contact kwargs w
       = inr (tt, set_heap (λ h, <[contact := Contact.set_fields (deref contact w) kwargs]> h) w).
Proof.
  unfold update_fields, Contact.set_fields.
  induction kwargs as [|kv kwargs IH]; intros Hp w; simpl.
  - unfold py_ret. by rewrite set_heap_deref.
  - simpl in Hp. apply andb_true_iff in Hp as [Hkv Hp].
    rewrite (bind_inr _ _ _ _ _ (update_fields_body contact kv w Hkv)).
    rewrite (IH Hp). f_equal. f_equal.
    destruct (decide (contact < length (heap w))) as [Hlt|Hge].
    + rewrite deref_set_heap by done. apply set_heap_twice.
    + rewrite set_heap_twice. apply set_heap_outside. lia.
Qed.

Lemma update_fields_raises (contact : loc) (kwargs : list (string * string)) :
  plain_kwargs kwargs = false →
  ∀ w, ∃ e w', update_fields contact kwargs w = inl (e, w').
Proof.
  unfold update_fields.
  induction kwargs as [|kv kwargs IH]; intros Hp w; simpl; [done|].
  simpl in Hp. destruct (Contact.plain kv.1) eqn:Hkv; simpl in Hp.
  - rewrite (bind_inr _ _ _ _ _ (update_fields_body contact kv w Hkv)). by apply IH.
  - destruct (update_fields_body_raises contact kv w Hkv) as (e & He).
    exists e, w. by apply bind_inl.
Qed.

(** *** [update_contact] *)

Lemma update_contact_absent (contact_id : string) (updates : list (string * string))
    (w : World) :
  _contacts w !! contact_id = None → update_contact contact_id updates w = inr (None, w).
Proof.
  intros Hi. unfold update_contact.
  erewrite bind_inr; [|reflexivity]. cbv beta. by rewrite Hi.
Qed.

Lemma update_contact_eq (contact_id : string) (updates : list (string * string)) (w : World) :
  plain_kwargs updates = true →
  update_contact contact_id updates w
  = match _contacts w !! contact_id with
    | None => inr (None, w)
    | Some r => inr (Some r, updated r updates w)
    end.
Proof.
  intros Hp. unfold update_contact.
  erewrite bind_inr; [|reflexivity]. cbv beta.
  destruct (_contacts w !! contact_id) as [r|]; [|done].
  erewrite bind_inr; [|apply remove_from_indexes_eq].
  erewrite bind_inr; [|by apply update_fields_eq].
  erewrite bind_inr; [|apply update_indexes_eq].
  done.
Qed.

(** On a stored id and a keyword that is not plain, [update_contact]
    raises, after [_remove_from_indexes]. *)
Lemma update_contact_raises (contact_id : string) (r : loc)
    (updates : list (string * string)) (w : World) :
  _contacts w !! contact_id = Some r → plain_kwargs updates = false →
  ∃ e w', update_contact contact_id updates w = inl (e, w').
Proof.
  intros Hi Hp. unfold update_contact.
  erewrite bind_inr; [|reflexivity]. cbv beta. rewrite Hi.
  erewrite bind_inr; [|apply remove_from_indexes_eq].
  destruct (update_fields_raises r updates Hp (index_del (deref r w) w)) as (e & w' & He).
  exists e, w'. by apply bind_inl.
Qed.

(** Whenever [update_contact] returns, it returns what the primary map
    holds under the id and leaves the state [updated] describes. *)
Lemma update_contact_inr (contact_id : string) (updates : list (string * string))
    (w w' : World) (res : option loc) :
  update_contact contact_id updates w = inr (res, w') →
  res = _contacts w !! contact_id
  ∧ w' = match _contacts w !! contact_id with
         | None => w
         | Some r => updated r updates w
         end.
Proof.
  destruct (_contacts w !! contact_id) as [r|] eqn:Hi.
  - destruct (plain_kwargs updates) eqn:Hp.
    + rewrite update_contact_eq, Hi by done. by intros [= <- <-].
    + destruct (update_contact_raises _ _ _ _ Hi Hp) as (e & w'' & ->). done.
  - rewrite update_contact_absent by done. by intros [= <- <-].
Qed.

Lemma delete_contact_eq (contact_id : string) (w : World) :
  delete_contact contact_id w
  = match _contacts w !! contact_id with
    | None => inr (false, w)
    | Some r => inr (true, set_contacts (delete contact_id) (index_del (deref r w) w))
    end.
Proof.
  unfold delete_contact.
  erewrite bind_inr; [|reflexivity]. cbv beta.
  destruct (_contacts w !! contact_id) as [r|] eqn:E; [|done].
  erewrite bind_inr; [|apply remove_from_indexes_eq].
  unfold mbind, Py_bind, py_bind, dict_delitem. simpl. by rewrite E.
Qed.

Lemma fetch_eq (ids : list string) (w : World) :
  fetch ids w = inr (omap (λ i, _contacts w !! i) ids, w).
Proof.
  induction ids as [|i ids IH]; [done|]. simpl.
  erewrite bind_inr; [|reflexivity]. cbv beta.
  destruct (_contacts w !! i) as [r|] eqn:E.
  - rewrite (dict_contains_true _ _ _ E).
    unfold mbind, Py_bind, py_bind, dict_getitem. by rewrite E, IH.
  - by rewrite (dict_contains_false _ _ E).
Qed.

Lemma search_contacts_eq (query : string) (w : World) :
  search_contacts query w
  = inr (if bool_decide (py_strip (py_lower query) = EmptyString) then []
         else omap (λ i, _contacts w !! i)
                (elements (matching_ids (py_strip (py_lower query)) w)), w).
Proof.
  unfold search_contacts. case_bool_decide; [done|].
  erewrite bind_inr; [|reflexivity]. apply fetch_eq.
Qed.

(** ** The name index under the two loops *)

Lemma ids_of_add_word (i : string) (ni : gmap string (gset string)) (word t : string) :
  ids_of (add_word i ni word) t
  = if decide (t = word) then ids_of ni t ∪ {[i]} else ids_of ni t.
Proof.
  unfold add_word, ids_of. case_decide as E.
  - subst. by rewrite lookup_insert_eq.
  - by rewrite lookup_insert_ne.
Qed.

Lemma ids_of_del_word (i : string) (ni : gmap string (gset string)) (word t : string) :
  ids_of (del_word i ni word) t
  = if decide (t = word) then ids_of ni t ∖ {[i]} else ids_of ni t.
Proof.
  unfold del_word, ids_of. destruct (ni !! word) as [ids|] eqn:E.
  - case_bool_decide as B; case_decide as D; subst.
    + rewrite lookup_delete_eq, E. simpl. by rewrite B.
    + by rewrite lookup_delete_ne.
    + by rewrite lookup_insert_eq, E.
    + by rewrite lookup_insert_ne.
  - case_decide; subst; [|done]. rewrite E. simpl. set_solver.
Qed.

Lemma elem_of_ids_of_add (j i : string) (ws : list string) (t : string) :
  ∀ ni, j ∈ ids_of (foldl (add_word i) ni ws) t ↔ j ∈ ids_of ni t ∨ (j = i ∧ t ∈ ws).
Proof.
  induction ws as [|x ws IH]; intros ni; simpl.
  - set_solver.
  - rewrite IH, ids_of_add_word. case_decide; set_solver.
Qed.

Lemma elem_of_ids_of_del (j i : string) (ws : list string) (t : string) :
  ∀ ni, j ∈ ids_of (foldl (del_word i) ni ws) t ↔ j ∈ ids_of ni t ∧ ¬ (j = i ∧ t ∈ ws).
Proof.
  induction ws as [|x ws IH]; intros ni; simpl.
  - set_solver.
  - rewrite IH, ids_of_del_word. case_decide; set_solver.
Qed.

Lemma elem_of_ids_of (ni : gmap string (gset string)) (t j : string) :
  j ∈ ids_of ni t ↔ ∃ ids, ni !! t = Some ids ∧ j ∈ ids.
Proof.
  unfold ids_of. destruct (ni !! t) as [ids|]; simpl.
  - split; [by exists ids | by intros (? & [= <-] & ?)].
  - split; [set_solver | by intros (? & [=] & ?)].
Qed.

(** ** The invariant on a map of values and the index dictionaries *)

Section index_steps.
Context (v : gmap string Contact.t) (i : string) (c : Contact.t).

Lemma name_exact_add ni :
  name_exact v ni → v !! i = None →
  name_exact (<[i := c]> v) (foldl (add_word i) ni (words c)).
Proof.
  intros Hex Hfresh t j [Hj | [-> Ht]]%elem_of_ids_of_add.
  - destruct (Hex t j Hj) as (cj & Hcj & Htj). exists cj. split; [|done].
    rewrite lookup_insert_ne; [done | congruence].
  - exists c. by rewrite lookup_insert_eq.
Qed.

Lemma name_complete_add ni :
  name_complete v ni →
  name_complete (<[i := c]> v) (foldl (add_word i) ni (words c)).
Proof.
  intros Hco j cj t Hj Ht. apply elem_of_ids_of_add.
  destruct (decide (j = i)) as [->|Hne].
  - rewrite lookup_insert_eq in Hj. injection Hj as <-. by right.
  - rewrite lookup_insert_ne in Hj by done. left. by eapply Hco.
Qed.

Lemma name_exact_del ni :
  name_exact v ni → v !! i = Some c →
  name_exact (delete i v) (foldl (del_word i) ni (words c)).
Proof.
  intros Hex Hi t j [Hj Hnot]%elem_of_ids_of_del.
  destruct (Hex t j Hj) as (cj & Hcj & Htj). exists cj. split; [|done].
  rewrite lookup_delete_ne; [done|]. intros <-.
  apply Hnot. split; [done|]. congruence.
Qed.

Lemma name_complete_del ni :
  name_complete v ni →
  name_complete (delete i v) (foldl (del_word i) ni (words c)).
Proof.
  intros Hco j cj t Hj Ht. apply elem_of_ids_of_del.
  apply lookup_delete_Some in Hj as [Hne Hj]. split; [by eapply Hco|].
  by intros [-> _].
Qed.

Context (key : Contact.t → string).

Lemma key_exact_insert idx :
  key_exact key v idx → v !! i = None →
  key_exact key (<[i := c]> v) (<[key c := i]> idx).
Proof.
  intros Hex Hfresh q j Hq.
  apply lookup_insert_Some in Hq as [[<- <-] | [Hne Hq]].
  - exists c. by rewrite lookup_insert_eq.
  - destruct (Hex q j Hq) as (cj & Hcj & Hkey). exists cj. split; [|done].
    rewrite lookup_insert_ne; [done | congruence].
Qed.

Lemma key_exact_delete idx :
  key_exact key v idx → v !! i = Some c →
  key_exact key (delete i v) (delete (key c) idx).
Proof.
  intros Hex Hi q j Hq. apply lookup_delete_Some in Hq as [Hne Hq].
  destruct (Hex q j Hq) as (cj & Hcj & Hkey). exists cj. split; [|done].
  rewrite lookup_delete_ne; [done|]. intros <-. congruence.
Qed.

Lemma key_complete_insert idx :
  key_complete key v idx →
  (∀ j cj, v !! j = Some cj → j ≠ i → key cj ≠ key c) →
  key_complete key (<[i := c]> v) (<[key c := i]> idx).
Proof.
  intros Hco Hfree j cj Hj.
  destruct (decide (j = i)) as [->|Hne].
  - rewrite lookup_insert_eq in Hj. injection Hj as <-. by rewrite lookup_insert_eq.
  - rewrite lookup_insert_ne in Hj by done.
    rewrite lookup_insert_ne; [by apply Hco|].
    intros E. by eapply Hfree.
Qed.

Lemma key_complete_delete idx :
  key_complete key v idx → v !! i = Some c →
  key_complete key (delete i v) (delete (key c) idx).
Proof.
  intros Hco Hi j cj Hj. apply lookup_delete_Some in Hj as [Hne Hj].
  rewrite lookup_delete_ne; [by apply Hco|].
  intros E. apply Hne.
  pose proof (Hco _ _ Hi) as H1. pose proof (Hco _ _ Hj) as H2. congruence.
Qed.
End index_steps.

(** ** The primary map as values *)

Lemma primary_lookup (w : World) (i : string) :
  primary w !! i = (λ r, deref r w) <$> _contacts w !! i.
Proof. unfold primary. apply lookup_fmap. Qed.

Lemma primary_Some (w : World) (i : string) (c : Contact.t) :
  primary w !! i = Some c ↔ ∃ r, _contacts w !! i = Some r ∧ c = deref r w.
Proof.
  rewrite primary_lookup. destruct (_contacts w !! i) as [r|]; simpl.
  - split; [intros [= <-]; by exists r | intros (? & [= <-] & ->); done].
  - split; [done | by intros (? & [=] & _)].
Qed.

Lemma update_field_id (c : Contact.t) (kv : string * string) :
  Contact.id (Contact.set_field c kv) = Contact.id c.
Proof.
  unfold Contact.set_field, Contact.assign.
  destruct (Contact.is_field kv.1); simpl; [|done].
  destruct (String.eqb kv.1 "id") eqn:E; simpl; [done|].
  by repeat case_match.
Qed.

Lemma update_fields_id (kwargs : list (string * string)) :
  ∀ c, Contact.id (Contact.set_fields c kwargs) = Contact.id c.
Proof.
  unfold Contact.set_fields.
  induction kwargs as [|kv kwargs IH]; intros c; simpl; [done|].
  by rewrite IH, update_field_id.
Qed.

Lemma primary_create (w : World) (i : string) (c : Contact.t) :
  heap_ok w →
  primary (set_contacts <[i := length (heap w)]> (set_heap (λ h, h ++ [c]) w))
  = <[i := c]> (primary w).
Proof.
  intros Hok. unfold primary; simpl. rewrite fmap_insert. f_equal.
  - apply (deref_new c w).
  - apply map_fmap_ext. intros j r Hj. unfold deref; simpl.
    apply lookup_total_app_l. by apply (Hok j r).
Qed.

Lemma primary_write (w : World) (i : string) (r : loc) (c : Contact.t) :
  heap_ok w → _contacts w !! i = Some r →
  primary (set_heap (λ h, <[r := c]> h) w) = <[i := c]> (primary w).
Proof.
  intros Hok Hi. apply map_eq. intros j.
  destruct (decide (j = i)) as [->|Hne].
  - rewrite lookup_insert_eq, primary_lookup; simpl. rewrite Hi; simpl.
    f_equal. unfold deref; simpl.
    apply list_lookup_total_insert_eq. by apply (Hok i r).
  - rewrite lookup_insert_ne by done. rewrite !primary_lookup; simpl.
    destruct (_contacts w !! j) as [r'|] eqn:Hj; simpl; [|done].
    f_equal. unfold deref; simpl.
    apply list_lookup_total_insert_ne. intros <-.
    destruct (Hok _ _ Hi) as [_ H1]. destruct (Hok _ _ Hj) as [_ H2]. congruence.
Qed.

Lemma primary_delete (w : World) (i : string) :
  primary (set_contacts (delete i) w) = delete i (primary w).
Proof. unfold primary; simpl. apply fmap_delete. Qed.

(** ** Each operation keeps the invariant *)

Lemma Inv_empty : Inv empty_store.
Proof.
  split.
  - intros i r H. simpl in H. by rewrite lookup_empty in H.
  - intros t j H. unfold ids_of in H. simpl in H. set_solver.
  - intros q j H. simpl in H. by rewrite lookup_empty in H.
  - intros q j H. simpl in H. by rewrite lookup_empty in H.
  - intros j c t H. rewrite primary_lookup in H. simpl in H. by rewrite lookup_empty in H.
Qed.

Lemma primary_created (c : Contact.t) (w : World) :
  heap_ok w → primary (created c w) = <[Contact.id c := c]> (primary w).
Proof. intros Hok. by rewrite <-primary_create. Qed.

Lemma Inv_created (c : Contact.t) (w : World) :
  Inv w → _contacts w !! Contact.id c = None → Inv (created c w).
Proof.
  intros [Hok Hn Hp He Hnc] Hfresh.
  assert (primary w !! Contact.id c = None) as Hfresh'.
  { by rewrite primary_lookup, Hfresh. }
  split.
  - intros j r Hj. simpl in Hj.
    apply lookup_insert_Some in Hj as [[<- <-] | [Hne Hj]].
    + split; [simpl; rewrite length_app; simpl; lia|].
      change (Contact.id (deref (length (heap w)) (set_heap (λ h, h ++ [c]) w)) = Contact.id c).
      by rewrite deref_new.
    + destruct (Hok j r Hj) as [Hlt Hid]. split.
      * simpl. rewrite length_app. lia.
      * unfold deref in *; simpl. by rewrite lookup_total_app_l.
  - rewrite primary_created by done. by apply name_exact_add.
  - rewrite primary_created by done. by apply (key_exact_insert _ _ _ Contact.phone).
  - rewrite primary_created by done. by apply (key_exact_insert _ _ _ email_key).
  - rewrite primary_created by done. by apply name_complete_add.
Qed.

Lemma updated_deref (r : loc) (updates : list (string * string)) (w : World) :
  r < length (heap w) →
  deref r (set_heap (λ h, <[r := Contact.set_fields (deref r w) updates]> h) w)
  = Contact.set_fields (deref r w) updates.
Proof. intros Hr. unfold deref; simpl. by apply list_lookup_total_insert_eq. Qed.

Lemma updated_eq (r : loc) (updates : list (string * string)) (w : World) :
  r < length (heap w) →
  updated r updates w
  = index_add (Contact.set_fields (deref r w) updates)
      (set_heap (λ h, <[r := Contact.set_fields (deref r w) updates]> h)
         (index_del (deref r w) w)).
Proof.
  intros Hr. unfold updated. cbv zeta.
  by rewrite (updated_deref r updates (index_del (deref r w) w)).
Qed.

Lemma primary_updated (i : string) (r : loc) (updates : list (string * string)) (w : World) :
  heap_ok w → _contacts w !! i = Some r →
  primary (updated r updates w)
  = <[i := Contact.set_fields (deref r w) updates]> (primary w).
Proof.
  intros Hok Hi. rewrite updated_eq by by apply (Hok i r).
  change (primary (index_add ?c ?w')) with (primary w').
  by rewrite (primary_write (index_del (deref r w) w) i r).
Qed.

Lemma Inv_updated (i : string) (r : loc) (updates : list (string * string)) (w : World) :
  Inv w → _contacts w !! i = Some r → Inv (updated r updates w).
Proof.
  intros [Hok Hn Hp He Hnc] Hi.
  destruct (Hok i r Hi) as [Hr Hid].
  set (c := deref r w) in *. set (c' := Contact.set_fields c updates).
  assert (Contact.id c' = i) as Hid' by (unfold c'; by rewrite update_fields_id).
  assert (primary w !! i = Some c) as Hc by (apply primary_Some; eauto).
  assert (delete i (primary w) !! i = None) as Hdel by apply lookup_delete_eq.
  split.
  - rewrite updated_eq by done. intros j r' Hj. simpl in Hj.
    destruct (Hok j r' Hj) as [Hlt Hj']. split.
    + simpl. by rewrite length_insert.
    + unfold deref; simpl. destruct (decide (r' = r)) as [->|Hne].
      * rewrite list_lookup_total_insert_eq by done.
        rewrite update_fields_id. exact Hj'.
      * by rewrite list_lookup_total_insert_ne.
  - rewrite (primary_updated i) by done. rewrite updated_eq by done. simpl.
    fold c c'. rewrite Hid', Hid. rewrite <-insert_delete_eq.
    apply name_exact_add; [|done]. by apply name_exact_del.
  - rewrite (primary_updated i) by done. rewrite updated_eq by done. simpl.
    fold c c'. rewrite Hid'. rewrite <-insert_delete_eq.
    apply (key_exact_insert _ _ _ Contact.phone); [|done].
    by apply (key_exact_delete _ _ _ Contact.phone).
  - rewrite (primary_updated i) by done. rewrite updated_eq by done. simpl.
    fold c c'. rewrite Hid'. rewrite <-insert_delete_eq.
    apply (key_exact_insert _ _ _ email_key); [|done].
    by apply (key_exact_delete _ _ _ email_key).
  - rewrite (primary_updated i) by done. rewrite updated_eq by done. simpl.
    fold c c'. rewrite Hid', Hid. rewrite <-insert_delete_eq.
    apply name_complete_add. by apply name_complete_del.
Qed.

Lemma Inv_deleted (i : string) (r : loc) (w : World) :
  Inv w → _contacts w !! i = Some r → Inv (deleted i r w).
Proof.
  intros [Hok Hn Hp He Hnc] Hi.
  destruct (Hok i r Hi) as [Hr Hid].
  assert (primary w !! i = Some (deref r w)) as Hc by (apply primary_Some; eauto).
  unfold deleted. split.
  - intros j r' Hj. simpl in Hj. apply lookup_delete_Some in Hj as [_ Hj].
    by apply (Hok j r').
  - rewrite primary_delete. simpl. rewrite Hid. by apply name_exact_del.
  - rewrite primary_delete. simpl. by apply (key_exact_delete _ _ _ Contact.phone).
  - rewrite primary_delete. simpl. by apply (key_exact_delete _ _ _ email_key).
  - rewrite primary_delete. simpl. rewrite Hid. by apply name_complete_del.
Qed.

Lemma complete_empty : complete empty_store.
Proof.
  split; intros j c H; rewrite primary_lookup in H; simpl in H;
    by rewrite lookup_empty in H.
Qed.

Lemma complete_created (c : Contact.t) (w : World) :
  Inv w → complete w → keys_free c (primary w) → complete (created c w).
Proof.
  intros HI [Hp He] Hfree. split; rewrite primary_created by apply HI; simpl.
  - apply (key_complete_insert _ _ _ Contact.phone); [done|].
    intros j cj Hj _. by apply (Hfree j cj Hj).
  - apply (key_complete_insert _ _ _ email_key); [done|].
    intros j cj Hj _. by apply (Hfree j cj Hj).
Qed.

Lemma complete_updated (i : string) (r : loc) (updates : list (string * string)) (w : World) :
  Inv w → complete w → _contacts w !! i = Some r →
  keys_free (Contact.set_fields (deref r w) updates) (delete i (primary w)) →
  complete (updated r updates w).
Proof.
  intros HI [Hp He] Hi Hfree.
  destruct (inv_heap w HI i r Hi) as [Hr Hid].
  assert (primary w !! i = Some (deref r w)) as Hc by (apply primary_Some; eauto).
  assert (Contact.id (Contact.set_fields (deref r w) updates) = i) as Hid'
    by by rewrite update_fields_id.
  split; rewrite (primary_updated i) by (done || apply HI);
    rewrite updated_eq by done; simpl; rewrite Hid', <-insert_delete_eq.
  - apply (key_complete_insert _ _ _ Contact.phone).
    + by apply (key_complete_delete _ _ _ Contact.phone).
    + intros j cj Hj _. by apply (Hfree j cj Hj).
  - apply (key_complete_insert _ _ _ email_key).
    + by apply (key_complete_delete _ _ _ email_key).
    + intros j cj Hj _. by apply (Hfree j cj Hj).
Qed.

Lemma complete_deleted (i : string) (r : loc) (w : World) :
  complete w → _contacts w !! i = Some r → complete (deleted i r w).
Proof.
  intros [Hp He] Hi.
  assert (primary w !! i = Some (deref r w)) as Hc by (apply primary_Some; eauto).
  unfold deleted. split; rewrite primary_delete; simpl.
  - by apply (key_complete_delete _ _ _ Contact.phone).
  - by apply (key_complete_delete _ _ _ email_key).
Qed.

(** ** Runs *)

Lemma exec_op_eq (o : op) (w : World) :
  plain_ops [o] = true → exec_op o w = inr (tt, next o w).
Proof.
  destruct o as [u n p e | i kw | i]; unfold exec_op; simpl; intros Hp.
  - erewrite bind_inr; [|apply create_eq]. done.
  - unfold mbind, Py_bind, py_bind. rewrite update_contact_eq.
    + by destruct (_contacts w !! i).
    + by rewrite andb_true_r in Hp.
  - unfold mbind, Py_bind, py_bind. rewrite delete_contact_eq.
    by destruct (_contacts w !! i).
Qed.

(** An operation that returns leaves the state [next] describes. *)
Lemma exec_op_inr (o : op) (w w' : World) (u : unit) :
  exec_op o w = inr (u, w') → w' = next o w.
Proof.
  destruct o as [n p e i | i kw | i]; unfold exec_op; simpl.
  - erewrite bind_inr; [|apply create_eq]. by intros [= _ <-].
  - unfold mbind, Py_bind, py_bind.
    destruct (update_contact i kw w) as [[e w1]|[res w1]] eqn:E; [done|].
    apply update_contact_inr in E as [_ ->]. by intros [= _ <-].
  - unfold mbind, Py_bind, py_bind. rewrite delete_contact_eq.
    destruct (_contacts w !! i); by intros [= _ <-].
Qed.

Lemma next_Inv (o : op) (w : World) :
  Inv w → (∀ i, i ∈ created_ids [o] → _contacts w !! i = None) → Inv (next o w).
Proof.
  intros HI Hfresh. destruct o as [u n p e | i kw | i]; simpl.
  - apply Inv_created; [done|]. apply (Hfresh u). simpl. set_solver.
  - destruct (_contacts w !! i) as [r|] eqn:E; [|done]. by apply (Inv_updated i).
  - destruct (_contacts w !! i) as [r|] eqn:E; [|done]. by apply Inv_deleted.
Qed.

Lemma next_complete (o : op) (w : World) :
  Inv w → complete w → no_collision o w = true → complete (next o w).
Proof.
  intros HI HC Hno. destruct o as [u n p e | i kw | i]; simpl in *.
  - apply complete_created; [done..|]. by apply bool_decide_eq_true in Hno.
  - rewrite primary_lookup in Hno.
    destruct (_contacts w !! i) as [r|] eqn:E; [|done]. simpl in Hno.
    apply (complete_updated i); [done..|]. by apply bool_decide_eq_true in Hno.
  - destruct (_contacts w !! i) as [r|] eqn:E; [|done]. by apply complete_deleted.
Qed.

Lemma next_absent (o : op) (w : World) (i : string) :
  _contacts w !! i = None → i ∉ created_ids [o] → _contacts (next o w) !! i = None.
Proof.
  intros Hi Hnot. destruct o as [u n p e | j kw | j]; simpl in *.
  - rewrite lookup_insert_ne; [done|]. set_solver.
  - by destruct (_contacts w !! j).
  - destruct (_contacts w !! j); [|done]. simpl.
    apply lookup_delete_None. by right.
Qed.

Lemma exec_cons (o : op) (ops : list op) (w : World) :
  plain_ops [o] = true → exec (o :: ops) w = exec ops (next o w).
Proof. intros Hp. unfold exec; simpl. by rewrite (bind_inr _ _ _ _ _ (exec_op_eq o w Hp)). Qed.

Lemma exec_cons_inr (o : op) (ops : list op) (w w' : World) :
  exec (o :: ops) w = inr (tt, w') → exec ops (next o w) = inr (tt, w').
Proof.
  unfold exec; simpl. unfold mbind, Py_bind, py_bind.
  destruct (exec_op o w) as [[e w1]|[u w1]] eqn:E; [done|].
  by apply exec_op_inr in E as ->.
Qed.

Lemma created_ids_cons (o : op) (ops : list op) :
  created_ids (o :: ops) = created_ids [o] ++ created_ids ops.
Proof. unfold created_ids. simpl. by destruct o. Qed.

(** A sequence with plain keywords runs to its end. *)
Lemma exec_eq (ops : list op) :
  plain_ops ops = true → ∀ w, exec ops w = inr (tt, foldl (λ w o, next o w) w ops).
Proof.
  induction ops as [|o ops IH]; intros Hp w; [done|].
  simpl in Hp. apply andb_true_iff in Hp as [Ho Hp].
  rewrite exec_cons by (simpl; by rewrite Ho). by apply IH.
Qed.

(** What a sequence that ran to its end has maintained. *)
Lemma exec_Inv (ops : list op) :
  ∀ w w', exec ops w = inr (tt, w') →
          Inv w → NoDup (created_ids ops) →
          (∀ i, i ∈ created_ids ops → _contacts w !! i = None) →
          Inv w' ∧ (complete w → collision_free ops w = true → complete w').
Proof.
  induction ops as [|o ops IH]; intros w w' Hex HI Hnd Hfresh.
  - injection Hex as <-. done.
  - rewrite created_ids_cons in Hnd, Hfresh.
    apply NoDup_app in Hnd as (Hnd1 & Hdisj & Hnd2).
    assert (Inv (next o w)) as HI'.
    { apply next_Inv; [done|]. intros i Hi. apply Hfresh. set_solver. }
    destruct (IH (next o w) w' (exec_cons_inr _ _ _ _ Hex) HI' Hnd2) as (HIw' & Hco).
    { intros i Hi. apply next_absent.
      - apply Hfresh. set_solver.
      - intros Hi'. by apply (Hdisj i). }
    split; [done|].
    intros HC Hcf. simpl in Hcf.
    apply andb_true_iff in Hcf as [Hno Hcf].
    destruct (exec_op o w) as [[e w1]|[u w1]] eqn:E; [done|].
    apply exec_op_inr in E as ->.
    apply Hco; [|done]. by apply next_complete.
Qed.

(** ** From the invariant to the statements on the dictionaries *)

Lemma Inv_index_sound (w : World) : Inv w → index_sound w.
Proof.
  intros [Hok Hn Hp He Hnc]. split_and!.
  - intros t ids i Ht Hi.
    destruct (Hn t i) as (c & Hc & _); [apply elem_of_ids_of; eauto|].
    apply primary_Some in Hc as (r & -> & _). eauto.
  - intros p i Hpi. destruct (Hp p i Hpi) as (c & Hc & _).
    apply primary_Some in Hc as (r & -> & _). eauto.
  - intros e i Hei. destruct (He e i Hei) as (c & Hc & _).
    apply primary_Some in Hc as (r & -> & _). eauto.
Qed.

Lemma Inv_reachable_by_name (w : World) : Inv w → reachable_by_name w.
Proof.
  intros HI i r t Hi Ht. apply elem_of_ids_of.
  apply (inv_name_complete w HI i (deref r w) t); [|done].
  apply primary_Some. eauto.
Qed.


(** ** C1: the index invariant *)




(** ** The scans of [search_contacts] *)

Lemma elem_of_scan_names (q j : string) (l : list (string * gset string)) :
  ∀ acc, j ∈ foldl (scan_names q) acc l
         ↔ j ∈ acc ∨ ∃ t ids, (t, ids) ∈ l ∧ py_in q (py_lower t) = true ∧ j ∈ ids.
Proof.
  induction l as [|[t ids] l IH]; intros acc; simpl.
  - split; [by left | intros [?|(? & ? & []%elem_of_nil & _)]; done].
  - rewrite IH. unfold scan_names; simpl. split.
    + intros [Hj | (t' & ids' & Hin & Hq & Hj)].
      * destruct (py_in q (py_lower t)) eqn:E; [|by left].
        apply elem_of_union in Hj as [Hj|Hj]; [by left|].
        right. exists t, ids. split_and!; [left | done..].
      * right. exists t', ids'. split_and!; [by right | done..].
    + intros [Hj | (t' & ids' & [[= -> ->] | Hin]%elem_of_cons & Hq & Hj)].
      * left. destruct (py_in q (py_lower t)); set_solver.
      * left. rewrite Hq. set_solver.
      * right. eauto.
Qed.

Lemma elem_of_scan_keys (test : string → bool) (j : string) (l : list (string * string)) :
  ∀ acc : gset string,
    j ∈ foldl (λ (acc : gset string) (kv : string * string),
                 if test kv.1 then acc ∪ {[kv.2]} else acc) acc l
         ↔ j ∈ acc ∨ ∃ k, (k, j) ∈ l ∧ test k = true.
Proof.
  induction l as [|[k i] l IH]; intros acc; simpl.
  - split; [by left | intros [?|(? & []%elem_of_nil & _)]; done].
  - rewrite IH. split.
    + intros [Hj | (k' & Hin & Hq)].
      * destruct (test k) eqn:E; [|by left].
        apply elem_of_union in Hj as [Hj|Hj]; [by left|].
        apply elem_of_singleton in Hj as ->.
        right. exists k. split; [left | done].
      * right. exists k'. split; [by right | done].
    + intros [Hj | (k' & [[= -> ->] | Hin]%elem_of_cons & Hq)].
      * left. destruct (test k); set_solver.
      * left. rewrite Hq. set_solver.
      * right. eauto.
Qed.

(** The ids [search_contacts] collects: those behind a name token, a phone
    string or an e-mail key that contains the query. *)
Lemma elem_of_matching_ids (q j : string) (w : World) :
  j ∈ matching_ids q w
  ↔ (∃ t, py_in q (py_lower t) = true ∧ j ∈ ids_of (_name_index w) t)
    ∨ (∃ p, py_in q p = true ∧ _phone_index w !! p = Some j)
    ∨ (∃ e, py_in q (py_lower e) = true ∧ _email_index w !! e = Some j).
Proof.
  unfold matching_ids.
  change (scan_emails q) with
    (λ (acc : gset string) (kv : string * string),
       if (λ k, py_in q (py_lower k)) kv.1 then acc ∪ {[kv.2]} else acc).
  rewrite elem_of_scan_keys.
  change (scan_phones q) with
    (λ (acc : gset string) (kv : string * string),
       if (py_in q) kv.1 then acc ∪ {[kv.2]} else acc).
  rewrite elem_of_scan_keys, elem_of_scan_names.
  split.
  - intros [[[[]%elem_of_empty | (t & ids & Hin & Hq & Hj)] | (p & Hin & Hq)] | (e & Hin & Hq)].
    + left. exists t. split; [done|]. apply elem_of_ids_of. exists ids.
      by apply elem_of_map_to_list in Hin.
    + right; left. exists p. by apply elem_of_map_to_list in Hin.
    + right; right. exists e. by apply elem_of_map_to_list in Hin.
  - intros [(t & Hq & (ids & Ht & Hj)%elem_of_ids_of) | [(p & Hq & Hp) | (e & Hq & He)]].
    + left; left; right. exists t, ids. by rewrite elem_of_map_to_list.
    + left; right. exists p. by rewrite elem_of_map_to_list.
    + right. exists e. by rewrite elem_of_map_to_list.
Qed.

(** Under the invariant every collected id is stored, and its contact
    carries the key that matched. *)
Lemma matching_ids_exact (q j : string) (w : World) :
  Inv w → j ∈ matching_ids q w →
  ∃ c, primary w !! j = Some c
       ∧ ((∃ t, t ∈ words c ∧ py_in q (py_lower t) = true)
          ∨ py_in q (Contact.phone c) = true
          ∨ py_in q (py_lower (email_key c)) = true).
Proof.
  intros [Hok Hn Hp He Hnc] [(t & Hq & Hj) | [(p & Hq & Hj) | (e & Hq & Hj)]]%elem_of_matching_ids.
  - destruct (Hn t j Hj) as (c & Hc & Ht). exists c. split; [done|]. left. eauto.
  - destruct (Hp p j Hj) as (c & Hc & <-). exists c. split; [done|]. by right; left.
  - destruct (He e j Hj) as (c & Hc & <-). exists c. split; [done|]. by right; right.
Qed.

Lemma matching_ids_by_name (q j t : string) (c : Contact.t) (w : World) :
  Inv w → primary w !! j = Some c → t ∈ words c → py_in q (py_lower t) = true →
  j ∈ matching_ids q w.
Proof.
  intros HI Hc Ht Hq. apply elem_of_matching_ids. left. exists t. split; [done|].
  by apply (inv_name_complete w HI j c t).
Qed.

(** ** Searching a known store *)

Lemma search_of_matching (query : string) (ids : gset string) (w : World) :
  py_strip (py_lower query) ≠ EmptyString →
  matching_ids (py_strip (py_lower query)) w = ids →
  search_contacts query w = inr (omap (λ i, _contacts w !! i) (elements ids), w).
Proof. intros Hq <-. rewrite search_contacts_eq. by rewrite bool_decide_eq_false_2. Qed.

Lemma omap_single {A B} (f : A → option B) (x : A) (y : B) :
  f x = Some y → omap f [x] = [y].
Proof. intros H. simpl. by rewrite H. Qed.


(** ** C3: substring search *)



(** ** C2: search after a rename *)

Lemma rename_leaves_email_match :
  create "id-1" "Alice Smith" "1234567890" "a.smith@example.com" empty_store
  = inr (0, smith_mail)
  ∧ update_contact "id-1" [("name", "Carol Jones")] smith_mail
    = inr (Some 0, smith_mail_renamed)
  ∧ deref 0 smith_mail_renamed
    = Contact.mk "Carol Jones" "1234567890" "a.smith@example.com" "id-1"
  ∧ search_contacts "smith" smith_mail_renamed = inr ([0], smith_mail_renamed)
  ∧ search_contacts "smith" smith_mail_renamed ≠ inr ([], smith_mail_renamed).
Proof.
  assert (search_contacts "smith" smith_mail_renamed = inr ([0], smith_mail_renamed))
    as Hs by by vm_compute.
  split_and!; [by vm_compute.. | exact Hs |].
  rewrite Hs. discriminate.
Qed.

(** C2 (as amended): in a store whose only contact was created with the
    name "Alice Smith", after that contact's name is updated to
    "Carol Jones" the update returns the contact, [search("jones")] returns
    exactly that contact, and [search("smith")] returns the empty sequence
    exactly when neither the contact's phone string nor its lowercased e-mail
    contains "smith"; otherwise it returns that contact. *)
Theorem search_after_rename (a p e : string) :
  ∃ r w1 w2,
    create a "Alice Smith" p e empty_store = inr (r, w1)
    ∧ update_contact a [("name", "Carol Jones")] w1 = inr (Some r, w2)
    ∧ deref r w2 = Contact.mk "Carol Jones" p e a
    ∧ search_contacts "jones" w2 = inr ([r], w2)
    ∧ search_contacts "smith" w2
      = inr (if py_in "smith" p || py_in "smith" (py_lower e) then [r] else [], w2).
Proof.
  set (c := Contact.mk "Alice Smith" p e a).
  set (c' := Contact.mk "Carol Jones" p e a).
  set (w1 := created c empty_store).
  set (w2 := updated 0 [("name", "Carol Jones")] w1).
  assert (Inv w1) as HI1 by (apply Inv_created; [apply Inv_empty | apply lookup_empty]).
  assert (_contacts w1 !! a = Some 0) as Ha by apply lookup_insert_eq.
  assert (Inv w2) as HI2 by by apply (Inv_updated a).
  assert (primary w2 = {[a := c']}) as Hprim.
  { unfold w2. rewrite (primary_updated a) by (done || apply HI1).
    unfold w1. rewrite primary_created by apply Inv_empty. simpl.
    by rewrite insert_insert_eq. }
  assert (_contacts w2 = {[a := 0]}) as Hcs by done.
  assert (∀ q j, j ∈ matching_ids q w2 → j = a) as Hsound.
  { intros q j (cj & Hcj & _)%matching_ids_exact; [|done].
    rewrite Hprim in Hcj. by apply lookup_singleton_Some in Hcj as [-> _]. }
  assert (matching_ids "jones" w2 = {[a]}) as Hjones.
  { apply set_eq. intros j. rewrite elem_of_singleton. split; [apply Hsound|].
    intros ->. apply (matching_ids_by_name _ _ "jones" c'); [done | | | done].
    - rewrite Hprim. apply lookup_singleton_eq.
    - unfold words; simpl. set_solver. }
  assert (matching_ids "smith" w2
          = if py_in "smith" p || py_in "smith" (py_lower e) then {[a]} else ∅) as Hsmith.
  { apply set_eq. intros j. split.
    - intros Hj. pose proof (Hsound _ _ Hj) as ->.
      apply matching_ids_exact in Hj as (cj & Hcj & Hwhy); [|done].
      rewrite Hprim in Hcj. apply lookup_singleton_Some in Hcj as [_ <-].
      destruct Hwhy as [(t & Ht & Hq) | [Hq | Hq]].
      + unfold words in Ht; simpl in Ht.
        apply elem_of_cons in Ht as [-> | Ht]; [done|].
        apply elem_of_cons in Ht as [-> | Ht]; [done|].
        by apply elem_of_nil in Ht.
      + simpl in Hq. rewrite Hq. set_solver.
      + unfold email_key in Hq; simpl in Hq. rewrite py_lower_idemp in Hq.
        rewrite Hq, orb_true_r. set_solver.
    - intros Hj. apply elem_of_matching_ids. right.
      destruct (py_in "smith" p) eqn:Ep; simpl in Hj.
      + apply elem_of_singleton in Hj as ->. left. exists p. split; [done|].
        apply lookup_insert_eq.
      + destruct (py_in "smith" (py_lower e)) eqn:Ee; [|set_solver].
        apply elem_of_singleton in Hj as ->. right. exists (py_lower e).
        split; [by rewrite py_lower_idemp|]. apply lookup_insert_eq. }
  exists 0, w1, w2. split_and!.
  - apply create_eq.
  - rewrite update_contact_eq by done. by rewrite Ha.
  - done.
  - rewrite (search_of_matching "jones" {[a]}) by done.
    rewrite elements_singleton.
    rewrite (omap_single _ a 0); [done|]. by rewrite Hcs, lookup_singleton_eq.
  - rewrite (search_of_matching "smith" _ w2 ltac:(done) Hsmith).
    destruct (py_in "smith" p || py_in "smith" (py_lower e)).
    + rewrite elements_singleton.
      rewrite (omap_single _ a 0); [done|]. by rewrite Hcs, lookup_singleton_eq.
    + by rewrite elements_empty.
Qed.

(** ** C4: the frame of [update] *)

Section update_fields_frame.
Context (proj : Contact.t → string) (field : string).
Context (Hproj : ∀ c f v, f ≠ field → proj (Contact.assign c f v) = proj c).

Lemma update_field_frame (c : Contact.t) (kv : string * string) :
  kv.1 ≠ field → proj (Contact.set_field c kv) = proj c.
Proof.
  intros Hne. unfold Contact.set_field.
  destruct (Contact.is_field kv.1 && negb (kv.1 =? "id")%string); [|done].
  by apply Hproj.
Qed.

Lemma update_fields_frame (kwargs : list (string * string)) :
  ∀ c, field ∉ kwargs.*1 → proj (Contact.set_fields c kwargs) = proj c.
Proof.
  unfold Contact.set_fields.
  induction kwargs as [|kv kwargs IH]; intros c Hnot; simpl; [done|].
  rewrite fmap_cons in Hnot. apply not_elem_of_cons in Hnot as [Hne Hnot].
  rewrite IH by done. by apply update_field_frame.
Qed.
End update_fields_frame.

Lemma setattr_name (c : Contact.t) (f v : string) :
  f ≠ "name" → Contact.name (Contact.assign c f v) = Contact.name c.
Proof.
  intros Hne. unfold Contact.assign.
  apply String.eqb_neq in Hne. rewrite Hne. by repeat case_match.
Qed.

Lemma setattr_phone (c : Contact.t) (f v : string) :
  f ≠ "phone" → Contact.phone (Contact.assign c f v) = Contact.phone c.
Proof.
  intros Hne. unfold Contact.assign.
  apply String.eqb_neq in Hne. rewrite Hne. by repeat case_match.
Qed.

Lemma setattr_email (c : Contact.t) (f v : string) :
  f ≠ "email" → Contact.email (Contact.assign c f v) = Contact.email c.
Proof.
  intros Hne. unfold Contact.assign.
  apply String.eqb_neq in Hne. rewrite Hne. by repeat case_match.
Qed.

Lemma heap_updated (r : loc) (updates : list (string * string)) (w : World) :
  heap (updated r updates w)
  = <[r := Contact.set_fields (deref r w) updates]> (heap w).
Proof. reflexivity. Qed.

Lemma deref_updated (r r' : loc) (updates : list (string * string)) (w : World) :
  deref r' (updated r updates w)
  = if decide (r = r' ∧ r < length (heap w))
    then Contact.set_fields (deref r w) updates else deref r' w.
Proof. unfold deref. rewrite heap_updated. apply list_lookup_total_insert. Qed.

(** C4: for every contact present in the primary map and every set of
    keyword arguments among name, phone, email and id, [update] returns
    that contact, keeps its id, keeps each of name, phone and e-mail that is
    not among the arguments, and leaves the primary map's keys and every
    other contact object as they were. *)
Theorem update_keeps_unsupplied_fields
    (i : string) (r : loc) (updates : list (string * string)) (w : World) :
  _contacts w !! i = Some r → field_kwargs updates = true →
  ∃ w', update_contact i updates w = inr (Some r, w')
        ∧ _contacts w' = _contacts w
        ∧ Contact.id (deref r w') = Contact.id (deref r w)
        ∧ ("name" ∉ updates.*1 → Contact.name (deref r w') = Contact.name (deref r w))
        ∧ ("phone" ∉ updates.*1 → Contact.phone (deref r w') = Contact.phone (deref r w))
        ∧ ("email" ∉ updates.*1 → Contact.email (deref r w') = Contact.email (deref r w))
        ∧ (∀ r', r' ≠ r → deref r' w' = deref r' w).
Proof.
  intros Hi Hf. exists (updated r updates w).
  rewrite update_contact_eq, Hi by by apply field_kwargs_plain.
  split_and!; [done | done | ..].
  - rewrite deref_updated. case_decide; [apply update_fields_id | done].
  - intros Hnot. rewrite deref_updated. case_decide; [|done].
    by apply (update_fields_frame Contact.name "name" setattr_name).
  - intros Hnot. rewrite deref_updated. case_decide; [|done].
    by apply (update_fields_frame Contact.phone "phone" setattr_phone).
  - intros Hnot. rewrite deref_updated. case_decide; [|done].
    by apply (update_fields_frame Contact.email "email" setattr_email).
  - intros r' Hne. rewrite deref_updated. case_decide as H; [|done].
    destruct H as [-> _]. done.
Qed.

Lemma update_keeps_unsupplied_fields_witness :
  ∃ w', update_contact "id-1" [("phone", "9999999999"); ("id", "id-9")] two_contacts
        = inr (Some 0, w')
        ∧ _contacts w' = _contacts two_contacts
        ∧ Contact.id (deref 0 w') = Contact.id (deref 0 two_contacts)
        ∧ ("name" ∉ [("phone", "9999999999"); ("id", "id-9")].*1 →
           Contact.name (deref 0 w') = Contact.name (deref 0 two_contacts))
        ∧ ("phone" ∉ [("phone", "9999999999"); ("id", "id-9")].*1 →
           Contact.phone (deref 0 w') = Contact.phone (deref 0 two_contacts))
        ∧ ("email" ∉ [("phone", "9999999999"); ("id", "id-9")].*1 →
           Contact.email (deref 0 w') = Contact.email (deref 0 two_contacts))
        ∧ (∀ r', r' ≠ 0 → deref r' w' = deref r' two_contacts).
Proof.
  apply (update_keeps_unsupplied_fields "id-1" 0
           [("phone", "9999999999"); ("id", "id-9")] two_contacts).
  - vm_compute. reflexivity.
  - vm_compute. reflexivity.
Defined.

(** ** C5: [update] and NotFound; the other operations always return *)

(** C5: with keyword arguments among name, phone, email and id, [update]
    returns NotFound ([None]) exactly when the id is not a key of the
    primary map, and otherwise returns the stored contact, which then
    carries the updated fields; [create], [delete], [search] and [list]
    return a value in every state, without an error, and so does [get]. *)
Theorem update_not_found_iff (i : string) (updates : list (string * string)) (w : World) :
  field_kwargs updates = true →
  (∃ res w', update_contact i updates w = inr (res, w')
             ∧ (res = None ↔ _contacts w !! i = None)
             ∧ res = _contacts w !! i
             ∧ ∀ r, res = Some r → r < length (heap w) →
                    deref r w' = Contact.set_fields (deref r w) updates)
  ∧ (∀ uuid4 name phone email, ∃ r w', create uuid4 name phone email w = inr (r, w'))
  ∧ (∀ j, ∃ b w', delete_contact j w = inr (b, w'))
  ∧ (∀ q, ∃ rs, search_contacts q w = inr (rs, w))
  ∧ (∃ rs, get_all_contacts w = inr (rs, w))
  ∧ (∀ j, get_contact j w = inr (_contacts w !! j, w)).
Proof.
  intros Hf. split_and!.
  - rewrite update_contact_eq by by apply field_kwargs_plain.
    destruct (_contacts w !! i) as [r|] eqn:E.
    + eexists _, _. split_and!; [done..|].
      intros r' [= <-] Hr. rewrite deref_updated. by rewrite decide_True.
    + eexists _, _. split_and!; done.
  - intros. rewrite create_eq. eauto.
  - intros j. rewrite delete_contact_eq. destruct (_contacts w !! j); eauto.
  - intros q. rewrite search_contacts_eq. eauto.
  - by eexists.
  - done.
Qed.

Lemma update_not_found_iff_witness :
  ∃ w', update_contact "id-1" [("phone", "9999999999")] two_contacts = inr (Some 0, w')
        ∧ deref 0 w' = Contact.mk "Alice Smith" "9999999999" "alice@example.com" "id-1".
Proof.
  destruct (proj1 (update_not_found_iff "id-1" [("phone", "9999999999")] two_contacts
                     eq_refl))
    as (res & w' & Hup & _ & Hres & Hnew).
  exists w'. change (_contacts two_contacts !! "id-1") with (Some 0) in Hres.
  subst res. split; [exact Hup|].
  rewrite (Hnew 0 eq_refl); [done | vm_compute; lia].
Defined.

(** ** C6: [delete] *)

(** C6: [delete] never raises; on an id that is not a key of the primary
    map it returns false and leaves the state as it was, also when called
    twice in a row; on a stored id it returns true and removes the key from
    the primary map, and from a state that satisfies the invariant no index
    entry leads to an absent id afterwards. *)
Theorem delete_total (i : string) (w : World) :
  (_contacts w !! i = None →
     delete_contact i w = inr (false, w)
     ∧ (delete_contact i;; delete_contact i) w = inr (false, w))
  ∧ (∀ r, _contacts w !! i = Some r →
       ∃ w', delete_contact i w = inr (true, w')
             ∧ _contacts w' = delete i (_contacts w)
             ∧ get_contact i w' = inr (None, w')
             ∧ (Inv w → index_sound w')).
Proof.
  split.
  - intros Hi.
    assert (delete_contact i w = inr (false, w)) as H
      by by rewrite delete_contact_eq, Hi.
    split; [done|]. by rewrite (bind_inr _ _ _ _ _ H).
  - intros r Hi. rewrite delete_contact_eq, Hi. eexists. split_and!; [done..| |].
    + unfold get_contact, gets; simpl. by rewrite lookup_delete_eq.
    + intros HI. by apply Inv_index_sound, (Inv_deleted i r).
Qed.

Lemma delete_total_witness :
  (delete_contact "id-7" two_contacts = inr (false, two_contacts)
   ∧ (delete_contact "id-7";; delete_contact "id-7") two_contacts
     = inr (false, two_contacts))
  ∧ ∃ w', delete_contact "id-2" two_contacts = inr (true, w')
          ∧ _contacts w' = delete "id-2" (_contacts two_contacts)
          ∧ get_contact "id-2" w' = inr (None, w')
          ∧ (Inv two_contacts → index_sound w').
Proof.
  split.
  - apply (proj1 (delete_total "id-7" two_contacts)). vm_compute. reflexivity.
  - apply (proj2 (delete_total "id-2" two_contacts) 1). vm_compute. reflexivity.
Defined.

(** ** C7: the empty-query guard *)

(** C7: in every state, [search] of an empty or whitespace-only query
    returns the empty sequence and leaves the state as it was. *)
Theorem search_blank_query (q : string) (w : World) :
  all_space q = true → search_contacts q w = inr ([], w).
Proof.
  intros Hq. rewrite search_contacts_eq.
  rewrite bool_decide_eq_true_2; [done|].
  apply strip_all_space. by rewrite all_space_lower.
Qed.

Lemma search_blank_query_witness :
  search_contacts "" two_contacts = inr ([], two_contacts)
  ∧ search_contacts "   " two_contacts = inr ([], two_contacts)
  ∧ ∃ rs, get_all_contacts two_contacts = inr (rs, two_contacts) ∧ length rs = 2.
Proof.
  split_and!.
  - by apply (search_blank_query "" two_contacts).
  - by apply (search_blank_query "   " two_contacts).
  - eexists. split; [done | by vm_compute].
Defined.

(** ** C8: create, then get *)

Lemma create_get (uuid4 name phone email : string) (w : World) :
  ∃ r w', create uuid4 name phone email w = inr (r, w')
          ∧ get_contact uuid4 w' = inr (Some r, w')
          ∧ deref r w' = Contact.mk name phone email uuid4.
Proof.
  rewrite create_eq. eexists _, _. split; [done|]. split.
  - unfold get_contact, gets; simpl. by rewrite lookup_insert_eq.
  - apply (deref_new (Contact.mk name phone email uuid4) w).
Qed.

(** C8: in every state, [create("Dana Lee","5551234567","dana@x.com")]
    returns a contact, and [get] of the id it was given returns that same
    contact, whose name, phone and e-mail are those three strings and whose
    id is the assigned one. *)
Theorem create_get_roundtrip (uuid4 : string) (w : World) :
  ∃ r w', create uuid4 "Dana Lee" "5551234567" "dana@x.com" w = inr (r, w')
          ∧ Contact.id (deref r w') = uuid4
          ∧ get_contact (Contact.id (deref r w')) w' = inr (Some r, w')
          ∧ deref r w' = Contact.mk "Dana Lee" "5551234567" "dana@x.com" uuid4.
Proof.
  destruct (create_get uuid4 "Dana Lee" "5551234567" "dana@x.com" w)
    as (r & w' & Hc & Hg & Hd).
  exists r, w'. rewrite Hd. by split_and!.
Qed.

(** ** C9: what the callers hold *)

Lemma returned_contact_aliases_store :
  ∃ r w', get_contact "id-1" one_contact = inr (Some r, one_contact)
          ∧ caller_setattr r "name" "Zed" one_contact = inr (tt, w')
          ∧ primary w' !! "id-1"
            = Some (Contact.mk "Zed" "1234567890" "alice@example.com" "id-1")
          ∧ primary w' ≠ primary one_contact
          ∧ ¬ reachable_by_name w'.
Proof.
  exists 0. eexists. split_and!; [done | done | by vm_compute | |].
  - intros H. apply (f_equal (.!! "id-1")) in H. vm_compute in H. discriminate.
  - intros H. destruct (H "id-1" 0 "zed" eq_refl) as (ids & Hids & _).
    + vm_compute. left.
    + vm_compute in Hids. discriminate.
Qed.

(** C9 (as amended): every operation that returns Contact data returns the
    store's own Contact objects, not copies: [create] returns the reference
    it has just filed in the primary map, [get] and [update] (with keyword
    arguments among name, phone, email and id) return the reference the
    primary map holds, and [search] and [list] return references held by
    the primary map. A caller's assignment to the name, phone, e-mail or id
    of such a contact changes that object, hence the contact the primary
    map shows, and leaves the primary map's keys and references and the
    three index dictionaries as they were. *)
Theorem returned_contacts_are_stored (w : World) :
  (∀ uuid4 name phone email,
      ∃ r w', create uuid4 name phone email w = inr (r, w')
              ∧ _contacts w' !! uuid4 = Some r)
  ∧ (∀ i, get_contact i w = inr (_contacts w !! i, w))
  ∧ (∀ i updates, field_kwargs updates = true →
       ∃ w', update_contact i updates w = inr (_contacts w !! i, w'))
  ∧ (∀ q, ∃ rs, search_contacts q w = inr (rs, w)
                ∧ ∀ r, r ∈ rs → ∃ i, _contacts w !! i = Some r)
  ∧ (∃ rs, get_all_contacts w = inr (rs, w)
           ∧ ∀ r, r ∈ rs ↔ ∃ i, _contacts w !! i = Some r)
  ∧ (∀ r field value, Contact.is_field field = true →
      ∃ w', caller_setattr r field value w = inr (tt, w')
            ∧ _contacts w' = _contacts w
            ∧ _name_index w' = _name_index w
            ∧ _phone_index w' = _phone_index w
            ∧ _email_index w' = _email_index w
            ∧ (r < length (heap w) →
               deref r w' = Contact.assign (deref r w) field value)).
Proof.
  split_and!.
  - intros. rewrite create_eq. eexists _, _. split; [done|].
    simpl. apply lookup_insert_eq.
  - done.
  - intros i updates Hf. rewrite update_contact_eq by by apply field_kwargs_plain.
    destruct (_contacts w !! i); eauto.
  - intros q. rewrite search_contacts_eq. eexists. split; [done|].
    intros r Hr. case_bool_decide; [by apply elem_of_nil in Hr|].
    apply list_elem_of_omap in Hr as (i & _ & Hi). eauto.
  - eexists. split; [done|]. intros r. rewrite list_elem_of_fmap. split.
    + intros ([i r'] & -> & Hin). exists i. by apply elem_of_map_to_list.
    + intros (i & Hi). exists (i, r). split; [done|]. by apply elem_of_map_to_list.
  - intros r field value Hf. unfold caller_setattr. rewrite setattr_field by done.
    eexists. split_and!; [done..|].
    intros Hr. by apply deref_set_heap.
Qed.

Lemma returned_contacts_are_stored_witness :
  ∃ w', caller_setattr 0 "phone" "000" one_contact = inr (tt, w')
        ∧ _phone_index w' = _phone_index one_contact
        ∧ deref 0 w' = Contact.mk "Alice Smith" "000" "alice@example.com" "id-1".
Proof.
  destruct (proj2 (proj2 (proj2 (proj2 (proj2
              (returned_contacts_are_stored one_contact))))) 0 "phone" "000" eq_refl)
    as (w' & Hset & _ & _ & Hp & _ & Hd).
  exists w'. split_and!; [done..|].
  rewrite Hd; [done | vm_compute; lia].
Defined.

(** ** C10: a failed [update] changes nothing *)

(** C10: for an id that is not a key of the primary map, [update] returns
    NotFound and the whole state (primary map, the three indexes, the
    contact objects) is as before. *)
Theorem update_absent_atomic (i : string) (updates : list (string * string)) (w : World) :
  _contacts w !! i = None → update_contact i updates w = inr (None, w).
Proof. apply update_contact_absent. Qed.

Lemma update_absent_atomic_witness :
  update_contact "id-7" [("name", "Carol Jones")] two_contacts = inr (None, two_contacts).
Proof. by apply (update_absent_atomic "id-7" _ two_contacts). Defined.

(** ** The scenario of [test_app.py] *)

(** Two creations, a search, an update of the phone, a deletion and the
    search the test asserts to be empty. *)
Example test_app_scenario :
  ∃ w, (alice ← create "id-1" "Alice Smith" "1234567890" "alice@example.com";
        bob ← create "id-2" "Bob Jones" "2345678901" "bob@example.com";
        found ← search_contacts "Smith";
        updated_contact ← update_contact "id-1" [("phone", "9999999999")];
        deleted_flag ← delete_contact "id-2";
        found_bob ← search_contacts "Bob";
        mret (alice, bob, found, updated_contact, deleted_flag, found_bob)) empty_store
       = inr ((0, 1, [0], Some 0, true, []), w)
       ∧ contents w [0]
         = [Contact.mk "Alice Smith" "9999999999" "alice@example.com" "id-1"].
Proof. eexists. split; by vm_compute. Qed.

(** * Further properties of the store *)

(** ** Reachable states *)

Lemma reachable_Inv (w : World) : reachable w → Inv w.
Proof.
  intros (ops & Hnd & Hex).
  destruct (exec_Inv ops _ _ Hex Inv_empty Hnd) as (HI & _); [|done].
  intros i _. apply lookup_empty.
Qed.

Lemma reachable_distinct_complete (w : World) :
  reachable_distinct w → Inv w ∧ complete w.
Proof.
  intros (ops & Hnd & Hcf & Hex).
  destruct (exec_Inv ops _ _ Hex Inv_empty Hnd) as (HI & HC).
  { intros i _. apply lookup_empty. }
  split; [done|]. apply HC; [apply complete_empty | done].
Qed.

Lemma stored_inj (w : World) (i j : string) (r : loc) :
  heap_ok w → _contacts w !! i = Some r → _contacts w !! j = Some r → i = j.
Proof.
  intros Hok Hi Hj.
  destruct (Hok _ _ Hi) as [_ H1]. destruct (Hok _ _ Hj) as [_ H2]. congruence.
Qed.

(** ** Name words are lowercase *)

Lemma py_lower_app (s t : string) : py_lower (s +:+ t) = py_lower s +:+ py_lower t.
Proof. induction s as [|a s IH]; simpl; [done|]. by rewrite IH. Qed.

Lemma split_from_lower (s : string) :
  ∀ cur t, py_lower cur = cur → py_lower s = s → t ∈ split_from cur s → py_lower t = t.
Proof.
  induction s as [|a s IH]; intros cur t Hcur Hs Ht; simpl in *.
  - destruct cur; [by apply elem_of_nil in Ht|].
    by apply list_elem_of_singleton in Ht as ->.
  - injection Hs as Ha Hs. destruct (py_isspace a).
    + apply elem_of_app in Ht as [Ht|Ht].
      * destruct cur; [by apply elem_of_nil in Ht|].
        by apply list_elem_of_singleton in Ht as ->.
      * by apply (IH EmptyString).
    + apply (IH (cur +:+ String a EmptyString)); [|done..].
      rewrite py_lower_app. simpl. by rewrite Hcur, Ha.
Qed.

Lemma words_lower (c : Contact.t) (t : string) : t ∈ words c → py_lower t = t.
Proof.
  unfold words, py_split. apply split_from_lower; [done|]. apply py_lower_idemp.
Qed.

Lemma matches_iff (q : string) (c : Contact.t) :
  matches q c = true
  ↔ (∃ t, t ∈ words c ∧ py_in q (py_lower t) = true)
    ∨ py_in q (Contact.phone c) = true
    ∨ py_in q (py_lower (email_key c)) = true.
Proof.
  unfold matches, email_key. rewrite py_lower_idemp.
  rewrite !orb_true_iff, existsb_exists. split.
  - intros [[(t & Ht%list_elem_of_In & Hq) | Hq] | Hq]; [|by right; left|by right; right].
    left. exists t. split; [done|]. by rewrite (words_lower c t).
  - intros [(t & Ht & Hq) | [Hq | Hq]]; [|by left; right|by right].
    left; left. exists t. split; [by apply list_elem_of_In|].
    by rewrite (words_lower c t) in Hq.
Qed.

(** ** What [search_contacts] returns *)

Lemma elem_of_search (query : string) (w : World) (r : loc) :
  ∃ rs, search_contacts query w = inr (rs, w)
        ∧ (r ∈ rs ↔ query_lower query ≠ EmptyString
                     ∧ ∃ i, i ∈ matching_ids (query_lower query) w
                            ∧ _contacts w !! i = Some r).
Proof.
  rewrite search_contacts_eq. eexists. split; [done|]. fold (query_lower query).
  case_bool_decide as Hq.
  - split; [by intros ?%elem_of_nil | by intros [? _]].
  - rewrite list_elem_of_omap. setoid_rewrite elem_of_elements. naive_solver.
Qed.

Lemma matching_ids_matches (q i : string) (r : loc) (w : World) :
  Inv w → i ∈ matching_ids q w → _contacts w !! i = Some r →
  matches q (deref r w) = true.
Proof.
  intros HI Hi Hr. apply matching_ids_exact in Hi as (c & Hc & Hwhy); [|done].
  apply primary_Some in Hc as (r' & Hr' & ->).
  rewrite Hr in Hr'. injection Hr' as <-. by apply matches_iff.
Qed.

Lemma matches_matching_ids (q i : string) (r : loc) (w : World) :
  Inv w → complete w → _contacts w !! i = Some r →
  matches q (deref r w) = true → i ∈ matching_ids q w.
Proof.
  intros HI [HCp HCe] Hr Hm.
  assert (primary w !! i = Some (deref r w)) as Hc by (apply primary_Some; eauto).
  apply matches_iff in Hm as [(t & Ht & Hq) | [Hq | Hq]].
  - by apply (matching_ids_by_name q i t (deref r w)).
  - apply elem_of_matching_ids. right; left.
    exists (Contact.phone (deref r w)). split; [done|]. by apply HCp.
  - apply elem_of_matching_ids. right; right.
    exists (email_key (deref r w)). split; [done|]. by apply (HCe i).
Qed.

(** X1: in every reachable state [search] returns only stored contacts that
    match the query, each under its own id, and it returns every stored
    contact that has a name word containing the query. *)
Theorem search_sound (query : string) (w : World) :
  reachable w →
  ∃ rs, search_contacts query w = inr (rs, w)
        ∧ (∀ r, r ∈ rs →
             query_lower query ≠ EmptyString
             ∧ _contacts w !! Contact.id (deref r w) = Some r
             ∧ matches (query_lower query) (deref r w) = true)
        ∧ (∀ i r, _contacts w !! i = Some r →
             query_lower query ≠ EmptyString →
             existsb (py_in (query_lower query)) (words (deref r w)) = true →
             r ∈ rs).
Proof.
  intros HI%reachable_Inv.
  destruct (elem_of_search query w 0) as (rs & Hs & _).
  exists rs. split; [done|]. split.
  - intros r Hr. destruct (elem_of_search query w r) as (rs' & Hs' & Hiff).
    rewrite Hs in Hs'. injection Hs' as <-.
    apply Hiff in Hr as (Hq & i & Hi & Hir). split_and!; [done| |].
    + destruct (inv_heap w HI i r Hir) as [_ ->]. done.
    + by apply (matching_ids_matches _ i).
  - intros i r Hir Hq Hname. destruct (elem_of_search query w r) as (rs' & Hs' & Hiff).
    rewrite Hs in Hs'. injection Hs' as <-.
    apply Hiff. split; [done|]. exists i. split; [|done].
    apply existsb_exists in Hname as (t & Ht%list_elem_of_In & Hqt).
    apply (matching_ids_by_name _ i t (deref r w)); [done | | done |].
    + apply primary_Some. eauto.
    + by rewrite (words_lower (deref r w) t).
Qed.

Lemma search_sound_witness :
  ∃ rs, search_contacts "SMITH " two_contacts = inr (rs, two_contacts)
        ∧ (∀ r, r ∈ rs →
             query_lower "SMITH " ≠ EmptyString
             ∧ _contacts two_contacts !! Contact.id (deref r two_contacts) = Some r
             ∧ matches (query_lower "SMITH ") (deref r two_contacts) = true)
        ∧ (∀ i r, _contacts two_contacts !! i = Some r →
             query_lower "SMITH " ≠ EmptyString →
             existsb (py_in (query_lower "SMITH ")) (words (deref r two_contacts)) = true →
             r ∈ rs).
Proof.
  apply (search_sound "SMITH " two_contacts).
  exists [Create "id-1" "Alice Smith" "1234567890" "alice@example.com";
          Create "id-2" "Bob Jones" "2345678901" "bob@example.com"].
  split; [compute_done | vm_compute; reflexivity].
Defined.

(** X2: in a state reached without two contacts ever sharing a phone string
    or a lowercased e-mail, [search] returns exactly the stored contacts
    that match the query: a non-blank query that occurs in a lowercased word
    of the name, in the phone string or in the lowercased e-mail. *)
Theorem search_exact (query : string) (w : World) :
  reachable_distinct w →
  ∃ rs, search_contacts query w = inr (rs, w)
        ∧ ∀ r, r ∈ rs ↔ query_lower query ≠ EmptyString
                        ∧ (∃ i, _contacts w !! i = Some r)
                        ∧ matches (query_lower query) (deref r w) = true.
Proof.
  intros [HI HC]%reachable_distinct_complete.
  destruct (elem_of_search query w 0) as (rs & Hs & _).
  exists rs. split; [done|]. intros r.
  destruct (elem_of_search query w r) as (rs' & Hs' & Hiff).
  rewrite Hs in Hs'. injection Hs' as <-. rewrite Hiff. split.
  - intros (Hq & i & Hi & Hir). split_and!; [done | eauto |].
    by apply (matching_ids_matches _ i).
  - intros (Hq & (i & Hir) & Hm). split; [done|]. exists i. split; [|done].
    by apply (matches_matching_ids _ i r).
Qed.

Lemma search_exact_witness :
  ∃ rs, search_contacts "345" two_contacts = inr (rs, two_contacts)
        ∧ ∀ r, r ∈ rs ↔ query_lower "345" ≠ EmptyString
                        ∧ (∃ i, _contacts two_contacts !! i = Some r)
                        ∧ matches (query_lower "345") (deref r two_contacts) = true.
Proof.
  apply (search_exact "345" two_contacts).
  exists [Create "id-1" "Alice Smith" "1234567890" "alice@example.com";
          Create "id-2" "Bob Jones" "2345678901" "bob@example.com"].
  split_and!; [compute_done | vm_compute; reflexivity | vm_compute; reflexivity].
Defined.

Lemma NoDup_omap_inj {A B} (f : A → option B) (l : list A) :
  (∀ x y z, f x = Some z → f y = Some z → x = y) → NoDup l → NoDup (omap f l).
Proof.
  intros Hinj. induction 1 as [|x l Hx Hl IH]; simpl; [constructor|].
  destruct (f x) as [z|] eqn:E; [|done].
  constructor; [|done]. intros (y & Hy & Hfy)%list_elem_of_omap.
  by rewrite (Hinj x y z E Hfy) in Hx.
Qed.

(** X3: in every reachable state the sequence [search] returns holds no
    contact twice. *)
Theorem search_no_duplicates (query : string) (w : World) :
  reachable w → ∃ rs, search_contacts query w = inr (rs, w) ∧ NoDup rs.
Proof.
  intros HI%reachable_Inv. rewrite search_contacts_eq. eexists. split; [done|].
  case_bool_decide; [constructor|].
  apply NoDup_omap_inj; [|apply NoDup_elements].
  intros i j r Hi Hj. by apply (stored_inj w i j r (inv_heap w HI)).
Qed.

Lemma search_no_duplicates_witness :
  ∃ rs, search_contacts "example" two_contacts = inr (rs, two_contacts) ∧ NoDup rs.
Proof.
  apply (search_no_duplicates "example" two_contacts).
  exists [Create "id-1" "Alice Smith" "1234567890" "alice@example.com";
          Create "id-2" "Bob Jones" "2345678901" "bob@example.com"].
  split; [compute_done | vm_compute; reflexivity].
Defined.

(** ** The query is normalised *)

Lemma py_lower_lstrip (s : string) : py_lower (lstrip s) = lstrip (py_lower s).
Proof.
  induction s as [|a s IH]; simpl; [done|].
  rewrite isspace_lower_char. by destruct (py_isspace a).
Qed.

Lemma py_lower_rstrip (s : string) : py_lower (rstrip s) = rstrip (py_lower s).
Proof.
  induction s as [|a s IH]; simpl; [done|].
  rewrite <-IH, isspace_lower_char.
  destruct (rstrip s); simpl; [by destruct (py_isspace a) | done].
Qed.

Lemma lstrip_starts_nonspace (s : string) : starts_nonspace (lstrip s).
Proof.
  induction s as [|a s IH]; simpl; [done|].
  destruct (py_isspace a) eqn:E; [done | by simpl].
Qed.

Lemma rstrip_starts_nonspace (s : string) : starts_nonspace s → starts_nonspace (rstrip s).
Proof.
  destruct s as [|a s]; simpl; [done|]. intros Ha.
  destruct (rstrip s); simpl; [by rewrite Ha | done].
Qed.

Lemma lstrip_id (s : string) : starts_nonspace s → lstrip s = s.
Proof. destruct s as [|a s]; simpl; [done|]. by intros ->. Qed.

Lemma rstrip_idemp (s : string) : rstrip (rstrip s) = rstrip s.
Proof.
  induction s as [|a s IH]; simpl; [done|].
  destruct (rstrip s) as [|b t] eqn:E.
  - destruct (py_isspace a) eqn:Ha; simpl; [done | by rewrite Ha].
  - simpl. simpl in IH. by rewrite IH.
Qed.

Lemma py_strip_idemp (s : string) : py_strip (py_strip s) = py_strip s.
Proof.
  unfold py_strip. rewrite (lstrip_id (rstrip (lstrip s))).
  - apply rstrip_idemp.
  - apply rstrip_starts_nonspace, lstrip_starts_nonspace.
Qed.

Lemma query_lower_idemp (query : string) :
  query_lower (query_lower query) = query_lower query.
Proof.
  unfold query_lower, py_strip.
  rewrite py_lower_rstrip, py_lower_lstrip, py_lower_idemp.
  apply py_strip_idemp.
Qed.

(** X4: [search] ignores the case of the query and the whitespace around
    it: a query and its lowercased, stripped form give the same result. *)
Theorem search_normalises_query (query : string) (w : World) :
  search_contacts query w = search_contacts (py_strip (py_lower query)) w
  ∧ search_contacts query w = search_contacts (py_lower query) w
  ∧ search_contacts query w = search_contacts (py_strip query) w.
Proof.
  rewrite !search_contacts_eq. fold (query_lower query).
  fold (query_lower (query_lower query)). rewrite query_lower_idemp.
  fold (query_lower (py_lower query)) (query_lower (py_strip query)).
  assert (query_lower (py_lower query) = query_lower query) as ->.
  { unfold query_lower. by rewrite py_lower_idemp. }
  assert (query_lower (py_strip query) = query_lower query) as ->; [|done].
  unfold query_lower at 1, py_strip.
  rewrite py_lower_rstrip, py_lower_lstrip. apply py_strip_idemp.
Qed.

(** ** Contacts just written are found *)

Lemma written_is_matched (q : string) (c : Contact.t) (w : World) :
  matches q c = true → Contact.id c ∈ matching_ids q (index_add c w).
Proof.
  intros [(t & Ht & Hq) | [Hq | Hq]]%matches_iff; apply elem_of_matching_ids.
  - left. exists t. split; [done|]. simpl. apply elem_of_ids_of_add. by right.
  - right; left. exists (Contact.phone c). split; [done|]. simpl. apply lookup_insert_eq.
  - right; right. exists (email_key c). split; [done|]. simpl. apply lookup_insert_eq.
Qed.

(** X5: in any state, right after [create] the new contact is returned by
    every search whose non-blank query occurs in a lowercased word of its
    name, in its phone string or in its lowercased e-mail, whatever the
    other contacts are. *)
Theorem search_finds_created (uuid4 name phone email query : string) (w : World) :
  query_lower query ≠ EmptyString →
  matches (query_lower query) (Contact.mk name phone email uuid4) = true →
  ∃ r w' rs, create uuid4 name phone email w = inr (r, w')
             ∧ deref r w' = Contact.mk name phone email uuid4
             ∧ search_contacts query w' = inr (rs, w')
             ∧ r ∈ rs.
Proof.
  intros Hq Hm. rewrite create_eq. eexists _, _.
  destruct (elem_of_search query
              (created (Contact.mk name phone email uuid4) w) (length (heap w)))
    as (rs & Hs & Hiff).
  exists rs. split_and!; [done | | done |].
  - apply (deref_new (Contact.mk name phone email uuid4) w).
  - apply Hiff. split; [done|]. exists uuid4. split.
    + by apply (written_is_matched _ (Contact.mk name phone email uuid4)).
    + simpl. apply lookup_insert_eq.
Qed.

Lemma search_finds_created_witness :
  ∃ r w' rs, create "id-3" "Carol Jones" "555 0199 222" "CJ@Mail.org" two_contacts
             = inr (r, w')
             ∧ deref r w' = Contact.mk "Carol Jones" "555 0199 222" "CJ@Mail.org" "id-3"
             ∧ search_contacts " cj@mail" w' = inr (rs, w')
             ∧ r ∈ rs.
Proof.
  apply (search_finds_created "id-3" "Carol Jones" "555 0199 222" "CJ@Mail.org"
           " cj@mail" two_contacts); [discriminate | reflexivity].
Defined.



(** ** Deleted contacts are gone *)

(** X7: in every reachable state, after [delete] of a stored contact [get]
    of its id finds nothing, and neither [search], for any query, nor
    [list] returns the contact again. *)
Theorem deleted_is_not_returned (i : string) (r : loc) (w : World) :
  reachable w → _contacts w !! i = Some r →
  ∃ w', delete_contact i w = inr (true, w')
        ∧ get_contact i w' = inr (None, w')
        ∧ (∀ query, ∃ rs, search_contacts query w' = inr (rs, w') ∧ r ∉ rs)
        ∧ (∃ rs, get_all_contacts w' = inr (rs, w') ∧ r ∉ rs).
Proof.
  intros HI%reachable_Inv Hi. rewrite delete_contact_eq, Hi. eexists.
  assert (∀ j, _contacts (deleted i r w) !! j ≠ Some r) as Hgone.
  { intros j Hj. simpl in Hj. apply lookup_delete_Some in Hj as [Hne Hj].
    by apply Hne, (stored_inj w i j r (inv_heap w HI)). }
  split_and!; [done | | |].
  - unfold get_contact, gets; simpl. by rewrite lookup_delete_eq.
  - intros query. destruct (elem_of_search query (deleted i r w) r) as (rs & Hs & Hiff).
    exists rs. split; [done|]. intros (_ & j & _ & Hj)%Hiff. by apply (Hgone j).
  - eexists. split; [done|].
    intros ([j r'] & -> & Hin%elem_of_map_to_list)%list_elem_of_fmap.
    by apply (Hgone j).
Qed.

Lemma deleted_is_not_returned_witness :
  ∃ w', delete_contact "id-2" two_contacts = inr (true, w')
        ∧ get_contact "id-2" w' = inr (None, w')
        ∧ (∀ query, ∃ rs, search_contacts query w' = inr (rs, w') ∧ 1 ∉ rs)
        ∧ (∃ rs, get_all_contacts w' = inr (rs, w') ∧ 1 ∉ rs).
Proof.
  apply (deleted_is_not_returned "id-2" 1 two_contacts).
  - exists [Create "id-1" "Alice Smith" "1234567890" "alice@example.com";
            Create "id-2" "Bob Jones" "2345678901" "bob@example.com"].
    split; [compute_done | vm_compute; reflexivity].
  - vm_compute; reflexivity.
Defined.

(** X8: the phone index holds one id per phone string, and [delete] removes
    the entry of the deleted contact's phone string whoever it leads to: in
    every reachable state, after the deletion of a contact another stored
    contact with the same phone string is no longer returned by a search
    whose query matches neither its name nor its e-mail, even when the
    query occurs in its phone string. *)
Theorem delete_drops_shared_phone
    (i j : string) (ri rj : loc) (query : string) (w : World) :
  reachable w →
  _contacts w !! i = Some ri → _contacts w !! j = Some rj → i ≠ j →
  Contact.phone (deref rj w) = Contact.phone (deref ri w) →
  existsb (py_in (query_lower query)) (words (deref rj w)) = false →
  py_in (query_lower query) (py_lower (Contact.email (deref rj w))) = false →
  ∃ w' rs, delete_contact i w = inr (true, w')
           ∧ _contacts w' !! j = Some rj
           ∧ deref rj w' = deref rj w
           ∧ search_contacts query w' = inr (rs, w')
           ∧ rj ∉ rs.
Proof.
  intros HI%reachable_Inv Hi Hj Hne Hphone Hname Hmail.
  rewrite delete_contact_eq, Hi. eexists.
  assert (Inv (deleted i ri w)) as HI' by by apply Inv_deleted.
  assert (_contacts (deleted i ri w) !! j = Some rj) as Hj'.
  { simpl. by rewrite lookup_delete_ne. }
  destruct (elem_of_search query (deleted i ri w) rj) as (rs & Hs & Hiff).
  exists rs. split_and!; [done..|].
  intros (_ & k & Hk & Hkr)%Hiff.
  assert (k = j) as -> by by apply (stored_inj _ k j rj (inv_heap _ HI')).
  assert (primary (deleted i ri w) !! j = Some (deref rj w)) as Hc
    by (apply primary_Some; eauto).
  apply elem_of_matching_ids in Hk as [(t & Hq & Ht) | [(p & Hq & Hp) | (e & Hq & He)]].
  - destruct (inv_name _ HI' t j Ht) as (c & Hc' & Htc).
    rewrite Hc in Hc'. injection Hc' as <-.
    rewrite (words_lower _ t Htc) in Hq.
    assert (existsb (py_in (query_lower query)) (words (deref rj w)) = true) as Hex.
    { apply existsb_exists. exists t. split; [by apply list_elem_of_In | done]. }
    congruence.
  - destruct (inv_phone _ HI' p j Hp) as (c & Hc' & <-).
    rewrite Hc in Hc'. injection Hc' as <-.
    simpl in Hp. rewrite Hphone in Hp. by rewrite lookup_delete_eq in Hp.
  - destruct (inv_email _ HI' e j He) as (c & Hc' & <-).
    rewrite Hc in Hc'. injection Hc' as <-.
    unfold email_key in Hq. rewrite py_lower_idemp in Hq. congruence.
Qed.

Lemma delete_drops_shared_phone_witness :
  ∃ w' rs, delete_contact "id-1" shared_phone_store = inr (true, w')
           ∧ _contacts w' !! "id-2" = Some 1
           ∧ deref 1 w' = deref 1 shared_phone_store
           ∧ search_contacts "555123" w' = inr (rs, w')
           ∧ 1 ∉ rs.
Proof.
  apply (delete_drops_shared_phone "id-1" "id-2" 0 1 "555123" shared_phone_store).
  - exists shared_phone_run. split; [compute_done | vm_compute; reflexivity].
  - vm_compute; reflexivity.
  - vm_compute; reflexivity.
  - discriminate.
  - vm_compute; reflexivity.
  - vm_compute; reflexivity.
  - vm_compute; reflexivity.
Defined.

(** ** [update] assigns what it is given *)

Section update_fields_set.
Context (proj : Contact.t → string) (field : string).
Context (Hfield : field ∈ ["name"; "phone"; "email"]).
Context (Hset : ∀ c v, proj (Contact.assign c field v) = v).
Context (Hkeep : ∀ c f v, f ≠ field → proj (Contact.assign c f v) = proj c).


End update_fields_set.



(** ** An [update] that raises *)






(** ** [get_all_contacts] *)

Lemma NoDup_fmap_snd_inj {A} `{EqDecision A} (m : gmap string A) :
  (∀ i j x, m !! i = Some x → m !! j = Some x → i = j) →
  NoDup (map_to_list m).*2.
Proof.
  intros Hinj. apply NoDup_fmap_2_strong; [|apply NoDup_map_to_list].
  intros [i x] [j y] Hi%elem_of_map_to_list Hj%elem_of_map_to_list Heq.
  simpl in Heq. subst y. by rewrite (Hinj i j x Hi Hj).
Qed.

(** X10: in every reachable state [list] returns every stored contact
    exactly once and nothing else, as many contacts as the primary map has
    keys. *)
Theorem get_all_contacts_lists_stored (w : World) :
  reachable w →
  ∃ rs, get_all_contacts w = inr (rs, w)
        ∧ NoDup rs
        ∧ length rs = size (_contacts w)
        ∧ ∀ r, r ∈ rs ↔ _contacts w !! Contact.id (deref r w) = Some r.
Proof.
  intros HI%reachable_Inv. eexists. split_and!; [done | | |].
  - apply NoDup_fmap_snd_inj. intros i j r. apply stored_inj, HI.
  - by rewrite length_fmap, length_map_to_list.
  - intros r. rewrite list_elem_of_fmap. split.
    + intros ([i r'] & -> & Hin%elem_of_map_to_list). simpl.
      by destruct (inv_heap w HI i r' Hin) as [_ ->].
    + intros Hr. exists (Contact.id (deref r w), r). split; [done|].
      by apply elem_of_map_to_list.
Qed.

Lemma get_all_contacts_lists_stored_witness :
  ∃ rs, get_all_contacts two_contacts = inr (rs, two_contacts)
        ∧ NoDup rs
        ∧ length rs = size (_contacts two_contacts)
        ∧ ∀ r, r ∈ rs ↔ _contacts two_contacts !! Contact.id (deref r two_contacts) = Some r.
Proof.
  apply (get_all_contacts_lists_stored two_contacts).
  exists [Create "id-1" "Alice Smith" "1234567890" "alice@example.com";
          Create "id-2" "Bob Jones" "2345678901" "bob@example.com"].
  split; [compute_done | vm_compute; reflexivity].
Defined.

(** ** A contact stored under an id already in use *)

(** X11: [create_contact] does not look for the id in the primary map: a
    contact built with an id that is already stored replaces the stored
    object under that id, and the index entries of the replaced contact
    stay, so a search that matches one of its name words returns the new
    contact, whatever the new contact's own fields are. *)
Theorem create_with_id_keeps_old_entries
    (i name phone email t query : string) (w : World) :
  i ∈ ids_of (_name_index w) t →
  query_lower query ≠ EmptyString →
  py_in (query_lower query) (py_lower t) = true →
  ∃ r w' rs, create_with_id i name phone email w = inr (r, w')
             ∧ get_contact i w' = inr (Some r, w')
             ∧ deref r w' = Contact.mk name phone email i
             ∧ search_contacts query w' = inr (rs, w')
             ∧ r ∈ rs.
Proof.
  intros Hi Hq Ht. unfold create_with_id.
  erewrite bind_inr; [|reflexivity]. rewrite create_contact_eq.
  change (deref (length (heap w))
            (set_heap (λ h, h ++ [Contact.mk name phone email
                                    (Contact.post_init EmptyString (Some i))]) w))
    with (deref (length (heap w))
            (set_heap (λ h, h ++ [Contact.mk name phone email i]) w)).
  rewrite deref_new. fold (created (Contact.mk name phone email i) w).
  eexists _, _.
  destruct (elem_of_search query (created (Contact.mk name phone email i) w)
              (length (heap w))) as (rs & Hs & Hiff).
  exists rs. split_and!; [done | | | done |].
  - unfold get_contact, gets; simpl. by rewrite lookup_insert_eq.
  - apply (deref_new (Contact.mk name phone email i) w).
  - apply Hiff. split; [done|]. exists i. split; [|simpl; apply lookup_insert_eq].
    apply elem_of_matching_ids. left. exists t. split; [done|].
    simpl. apply elem_of_ids_of_add. by left.
Qed.

Lemma create_with_id_keeps_old_entries_witness :
  ∃ r w' rs, create_with_id "id-1" "Bob Ray" "5559876543" "bob@x.com" one_contact
             = inr (r, w')
             ∧ get_contact "id-1" w' = inr (Some r, w')
             ∧ deref r w' = Contact.mk "Bob Ray" "5559876543" "bob@x.com" "id-1"
             ∧ search_contacts "Alice" w' = inr (rs, w')
             ∧ r ∈ rs.
Proof.
  apply (create_with_id_keeps_old_entries "id-1" "Bob Ray" "5559876543" "bob@x.com"
           "alice" "Alice" one_contact).
  - vm_compute. set_solver.
  - discriminate.
  - reflexivity.
Defined.

(** * The service *)

(** ** E-mail and phone formats *)

Lemma py_in_char (c : ascii) (s : string) : py_in (String c EmptyString) s = has_char c s.
Proof.
  induction s as [|a s IH]; simpl; [done|]. rewrite IH.
  destruct (Ascii.ascii_dec c a) as [->|Hne].
  - rewrite Ascii.eqb_refl. by destruct s.
  - simpl. destruct (Ascii.eqb a c) eqn:E; [|done].
    apply Ascii.eqb_eq in E. congruence.
Qed.

Lemma py_split_on_cons (sep : ascii) (s : string) :
  ∃ piece pieces, py_split_on sep s = piece :: pieces.
Proof.
  induction s as [|a s (p & ps & IH)]; simpl; [eauto|].
  destruct (Ascii.eqb a sep); [eauto|]. rewrite IH. eauto.
Qed.

Lemma py_split_on_no_sep (sep : ascii) (s : string) :
  has_char sep s = false → py_split_on sep s = [s].
Proof.
  induction s as [|a s IH]; simpl; [done|].
  intros [Ha Hs]%orb_false_iff. rewrite Ha, IH; done.
Qed.

Lemma py_split_on_two (sep : ascii) (s : string) :
  has_char sep s = true → ∃ p q ps, py_split_on sep s = p :: q :: ps.
Proof.
  induction s as [|a s IH]; simpl; [done|].
  destruct (Ascii.eqb a sep) eqn:E; simpl.
  - intros _. destruct (py_split_on_cons sep s) as (p & ps & ->). eauto.
  - intros (p & q & ps & ->)%IH. eauto.
Qed.

(** The last piece is what follows the last separator. *)
Lemma last_piece_decompose (sep : ascii) (s : string) :
  has_char sep s = true →
  ∃ l, s = l +:+ String sep (last_piece (py_split_on sep s))
       ∧ has_char sep (last_piece (py_split_on sep s)) = false.
Proof.
  unfold last_piece. induction s as [|a s IH]; simpl; [done|].
  destruct (Ascii.eqb a sep) eqn:E; simpl.
  - intros _. apply Ascii.eqb_eq in E as ->.
    destruct (has_char sep s) eqn:Hs.
    + destruct (IH eq_refl) as (l & Hl & Hno).
      destruct (py_split_on_cons sep s) as (p & ps & Hp). rewrite Hp in *.
      exists (String sep l). split; [|done].
      change (String sep s = String sep (l +:+ String sep (List.last (p :: ps) ""))).
      by f_equal.
    + rewrite (py_split_on_no_sep sep s Hs). by exists EmptyString.
  - intros Hs. destruct (IH Hs) as (l & Hl & Hno).
    destruct (py_split_on_two sep s Hs) as (p & q & ps & Hp). rewrite Hp in *.
    exists (String a l). split; [|done].
    change (String a s = String a (l +:+ String sep (List.last (q :: ps) ""))).
    by f_equal.
Qed.

Lemma last_piece_app (sep : ascii) (d : string) (l : string) :
  last_piece (py_split_on sep (l +:+ String sep d)) = last_piece (py_split_on sep d).
Proof.
  unfold last_piece. induction l as [|a l IH]; simpl.
  - rewrite Ascii.eqb_refl. by destruct (py_split_on_cons sep d) as (p & ps & ->).
  - assert (has_char sep (l +:+ String sep d) = true) as Hs.
    { clear IH. induction l as [|b l IHl]; simpl.
      - by rewrite Ascii.eqb_refl.
      - by rewrite IHl, orb_true_r. }
    destruct (py_split_on_two sep _ Hs) as (p & q & ps & Hp).
    destruct (Ascii.eqb a sep); rewrite Hp in *; simpl in *; done.
Qed.

(** X12: [_validate_email] accepts exactly the strings with an ['@']
    followed, after the last ['@'], by a part that contains a ['.']; every
    other string raises [ValueError] with the e-mail in the message, and
    the store is not touched. *)
Theorem validate_email_spec (email : string) (w : World) :
  ((∃ l d, email = l +:+ String "@" d
           ∧ has_char "@" d = false ∧ has_char "." d = true)
   → ContactService._validate_email (PStr email) w = (inr tt, w))
  ∧ (¬ (∃ l d, email = l +:+ String "@" d
               ∧ has_char "@" d = false ∧ has_char "." d = true)
     → ContactService._validate_email (PStr email) w
       = (inl (ValueError ("Invalid email format: " +:+ email)), w)).
Proof.
  assert (ContactService.bad_email email = false
          ↔ ∃ l d, email = l +:+ String "@" d
                   ∧ has_char "@" d = false ∧ has_char "." d = true) as Hiff.
  { unfold ContactService.bad_email. rewrite orb_false_iff, !negb_false_iff, !py_in_char.
    split.
    - intros [Hat Hdot]. destruct (last_piece_decompose "@" email Hat) as (l & Hl & Hno).
      eauto.
    - intros (l & d & -> & Hno & Hdot). split.
      + clear. induction l as [|a l IH]; simpl; [done|]. by rewrite IH, orb_true_r.
      + rewrite last_piece_app, (py_split_on_no_sep _ _ Hno). done. }
  unfold ContactService._validate_email, the_str.
  split; intros H.
  - apply Hiff in H. unfold mbind, Svc_bind, svc_bind, svc_ret. by rewrite H.
  - unfold mbind, Svc_bind, svc_bind, svc_ret.
    destruct (ContactService.bad_email email) eqn:E; [done|].
    exfalso. by apply H, Hiff.
Qed.

Lemma validate_email_spec_witness :
  ContactService._validate_email (PStr "alice@example.com") two_contacts
  = (inr tt, two_contacts)
  ∧ ContactService._validate_email (PStr "alice.smith@localhost") two_contacts
    = (inl (ValueError "Invalid email format: alice.smith@localhost"), two_contacts).
Proof.
  split.
  - apply (proj1 (validate_email_spec "alice@example.com" two_contacts)).
    exists "alice", "example.com". by split_and!.
  - apply (proj2 (validate_email_spec "alice.smith@localhost" two_contacts)).
    intros (l & d & Heq & Hat & Hdot).
    assert (last_piece (py_split_on "@" "alice.smith@localhost") = d) as Hd.
    { rewrite Heq, last_piece_app, (py_split_on_no_sep _ _ Hat). done. }
    vm_compute in Hd. subst d. discriminate.
Defined.

Lemma isdigit_not_separator (a : ascii) : isdigit_char a = true → is_separator a = false.
Proof. by destruct a as [[] [] [] [] [] [] [] []]. Qed.

Lemma clean_phone_cons (a : ascii) (s : string) :
  ContactService.clean_phone (String a s)
  = if is_separator a then ContactService.clean_phone s
    else String a (ContactService.clean_phone s).
Proof.
  unfold ContactService.clean_phone, is_separator. simpl.
  destruct (Ascii.eqb a "-") eqn:E1; simpl; [done|].
  destruct (Ascii.eqb a " ") eqn:E2; simpl; [done|].
  destruct (Ascii.eqb a "(") eqn:E3; simpl; [done|].
  by destruct (Ascii.eqb a ")") eqn:E4.
Qed.

Lemma all_digits_clean (s : string) :
  all_digits (ContactService.clean_phone s) = digits_and_separators s.
Proof.
  induction s as [|a s IH]; [done|]. rewrite clean_phone_cons. simpl.
  destruct (is_separator a) eqn:Es.
  - rewrite IH. destruct (isdigit_char a) eqn:Ed; [|done].
    apply isdigit_not_separator in Ed. congruence.
  - simpl. by rewrite IH, orb_false_r.
Qed.

Lemma length_clean (s : string) :
  digits_and_separators s = true →
  String.length (ContactService.clean_phone s) = count_digits s.
Proof.
  induction s as [|a s IH]; [done|]. rewrite clean_phone_cons. simpl.
  intros [Ha Hs]%andb_true_iff. destruct (isdigit_char a) eqn:Ed.
  - rewrite (isdigit_not_separator a Ed). simpl. by rewrite IH.
  - simpl in Ha. rewrite Ha. by apply IH.
Qed.

Lemma bad_phone_iff (phone : string) :
  ContactService.bad_phone phone = false
  ↔ digits_and_separators phone = true ∧ 10 ≤ count_digits phone.
Proof.
  unfold ContactService.bad_phone. rewrite orb_false_iff, negb_false_iff, Nat.ltb_ge.
  split.
  - intros [Hd Hlen].
    assert (all_digits (ContactService.clean_phone phone) = true) as Hall.
    { unfold py_isdigit in Hd. by destruct (ContactService.clean_phone phone). }
    rewrite all_digits_clean in Hall. split; [done|]. by rewrite <-length_clean.
  - intros [Hds Hcount]. rewrite <-(length_clean phone Hds) in Hcount. split; [|done].
    unfold py_isdigit. destruct (ContactService.clean_phone phone) eqn:E.
    + simpl in Hcount. lia.
    + by rewrite <-E, all_digits_clean.
Qed.

(** X13: [_validate_phone] accepts exactly the strings made of digits and
    of the separators hyphen, space and parentheses only, with at least ten
    digits; every other string raises [ValueError] with the phone in the
    message, and the store is not touched. *)
Theorem validate_phone_spec (phone : string) (w : World) :
  (digits_and_separators phone = true → 10 ≤ count_digits phone →
   ContactService._validate_phone (PStr phone) w = (inr tt, w))
  ∧ (¬ (digits_and_separators phone = true ∧ 10 ≤ count_digits phone) →
     ContactService._validate_phone (PStr phone) w
     = (inl (ValueError ("Invalid phone format: " +:+ phone)), w)).
Proof.
  unfold ContactService._validate_phone, the_str, mbind, Svc_bind, svc_bind, svc_ret.
  split.
  - intros Hd Hc. by rewrite (proj2 (bad_phone_iff phone) (conj Hd Hc)).
  - intros Hnot. destruct (ContactService.bad_phone phone) eqn:E; [done|].
    by apply bad_phone_iff in E.
Qed.

Lemma validate_phone_spec_witness :
  ContactService._validate_phone (PStr "(555) 123-4567") two_contacts
  = (inr tt, two_contacts)
  ∧ ContactService._validate_phone (PStr "+1 555 123 4567") two_contacts
    = (inl (ValueError "Invalid phone format: +1 555 123 4567"), two_contacts).
Proof.
  split.
  - apply (proj1 (validate_phone_spec "(555) 123-4567" two_contacts)).
    + reflexivity.
    + vm_compute. lia.
  - apply (proj2 (validate_phone_spec "+1 555 123 4567" two_contacts)).
    intros [H _]. vm_compute in H. discriminate.
Defined.

(** ** The monad of the service *)

Lemma svc_bind_inr {A B} (m : Svc A) (k : A → Svc B) (w w' : World) (a : A) :
  m w = (inr a, w') → (m ≫= k) w = k a w'.
Proof. intros H. unfold mbind, Svc_bind, svc_bind. by rewrite H. Qed.

Lemma svc_bind_inl {A B} (m : Svc A) (k : A → Svc B) (w w' : World) (e : sexc) :
  m w = (inl e, w') → (m ≫= k) w = (inl e, w').
Proof. intros H. unfold mbind, Svc_bind, svc_bind. by rewrite H. Qed.

Lemma call_inr {A} (m : Py A) (w w' : World) (a : A) :
  m w = inr (a, w') → call m w = (inr a, w').
Proof. intros H. unfold call. by rewrite H. Qed.

(** ** [create_contacts] *)

Lemma nonblank_false (s : string) :
  nonblank s = false → bool_decide (py_strip s = EmptyString) = true.
Proof. unfold nonblank. by intros ->%negb_false_iff. Qed.

Lemma nonblank_true (s : string) :
  nonblank s = true → bool_decide (py_strip s = EmptyString) = false.
Proof. unfold nonblank. by intros ->%negb_true_iff. Qed.

Lemma validate_contact_data_eq (contact_data : pydict) (w : World) :
  match valid_record contact_data with
  | Some _ => ContactService._validate_contact_data contact_data w = (inr tt, w)
  | None => ∃ msg, ContactService._validate_contact_data contact_data w
                   = (inl (ValueError msg), w)
  end.
Proof.
  unfold valid_record, ContactService._validate_contact_data.
  unfold ContactService.check_required, ContactService._validate_email,
    ContactService._validate_phone, has_key, getitem, the_str, not_a_nonempty_string,
    mbind, mret, Svc_bind, Svc_ret, svc_bind, svc_ret, svc_raise.
  destruct (item contact_data "name") as [[n|? ?]|]; simpl; eauto.
  destruct (nonblank n) eqn:En;
    [rewrite (nonblank_true n En) | rewrite (nonblank_false n En)]; simpl;
    [|destruct (item contact_data "phone") as [[?|? ?]|];
      destruct (item contact_data "email") as [[?|? ?]|]; eauto].
  destruct (item contact_data "phone") as [[p|? ?]|]; simpl; eauto.
  destruct (nonblank p) eqn:Ep;
    [rewrite (nonblank_true p Ep) | rewrite (nonblank_false p Ep)]; simpl;
    [|destruct (item contact_data "email") as [[?|? ?]|]; eauto].
  destruct (item contact_data "email") as [[e|? ?]|]; simpl; eauto.
  destruct (nonblank e) eqn:Ee;
    [rewrite (nonblank_true e Ee) | rewrite (nonblank_false e Ee)]; simpl; eauto.
  destruct (ContactService.bad_email e); simpl; eauto.
  destruct (ContactService.bad_phone p); simpl; eauto.
Qed.

Lemma create_one_eq (uuid4 : string) (contact_data : pydict) (w : World) :
  match contact_of_record (uuid4, contact_data) with
  | Some c => ContactService.create_one uuid4 contact_data w
              = (inr (length (heap w)), created c w)
  | None => ∃ msg, ContactService.create_one uuid4 contact_data w
                   = (inl (ValueError msg), w)
  end.
Proof.
  pose proof (validate_contact_data_eq contact_data w) as Hv.
  unfold contact_of_record, ContactService.create_one. simpl.
  destruct (valid_record contact_data) as [[[n p] e]|] eqn:E.
  - rewrite (svc_bind_inr _ _ _ _ _ Hv).
    unfold valid_record in E.
    destruct (item contact_data "name") as [[n'|? ?]|] eqn:E1; try done.
    destruct (item contact_data "phone") as [[p'|? ?]|] eqn:E2; try done.
    destruct (item contact_data "email") as [[e'|? ?]|] eqn:E3; try done.
    case_match; [|done]. injection E as -> -> ->.
    unfold getitem. rewrite E1, E2, E3.
    unfold the_str, mbind, Svc_bind, svc_bind, svc_ret. simpl.
    pose proof (create_eq uuid4 n p e w) as Hc. unfold create in Hc.
    unfold mbind, Py_bind, py_bind in Hc. simpl in Hc.
    unfold call. simpl. by rewrite Hc.
  - destruct Hv as (msg & Hv). exists msg. by rewrite (svc_bind_inl _ _ _ _ _ Hv).
Qed.

Lemma all_space_has_char (c : ascii) (s : string) :
  all_space s = true → has_char c s = true → py_isspace c = true.
Proof.
  induction s as [|a s IH]; simpl; [done|].
  intros [Ha Hs]%andb_true_iff [->%Ascii.eqb_eq | Hc]%orb_true_iff; auto.
Qed.

Lemma nonblank_has_char (c : ascii) (s : string) :
  has_char c s = true → py_isspace c = false → nonblank s = true.
Proof.
  intros Hc Hns. unfold nonblank. apply negb_true_iff, bool_decide_eq_false.
  intros Hs%strip_empty_iff. by rewrite (all_space_has_char c s Hs Hc) in Hns.
Qed.

Lemma isdigit_not_space (a : ascii) : isdigit_char a = true → py_isspace a = false.
Proof. by destruct a as [[] [] [] [] [] [] [] []]. Qed.

Lemma count_digits_pos (s : string) :
  0 < count_digits s → ∃ a, has_char a s = true ∧ isdigit_char a = true.
Proof.
  induction s as [|a s IH]; simpl; [lia|].
  destruct (isdigit_char a) eqn:E.
  - intros _. exists a. by rewrite Ascii.eqb_refl.
  - intros (b & Hb & Hd)%IH. exists b. by rewrite Hb, orb_true_r.
Qed.

Lemma good_phone_nonblank (phone : string) :
  ContactService.bad_phone phone = false → nonblank phone = true.
Proof.
  intros [_ Hc]%bad_phone_iff.
  destruct (count_digits_pos phone) as (a & Ha & Hd); [lia|].
  apply (nonblank_has_char a); [done|]. by apply isdigit_not_space.
Qed.

Lemma good_email_nonblank (email : string) :
  ContactService.bad_email email = false → nonblank email = true.
Proof.
  unfold ContactService.bad_email. rewrite orb_false_iff, !negb_false_iff, py_in_char.
  intros [Hat _]. by apply (nonblank_has_char "@").
Qed.

Lemma valid_record_iff (contact_data : pydict) (name phone email : string) :
  valid_record contact_data = Some (name, phone, email)
  ↔ item contact_data "name" = Some (PStr name)
    ∧ item contact_data "phone" = Some (PStr phone)
    ∧ item contact_data "email" = Some (PStr email)
    ∧ nonblank name = true
    ∧ ContactService.bad_email email = false
    ∧ ContactService.bad_phone phone = false.
Proof.
  unfold valid_record. split.
  - destruct (item contact_data "name") as [[n|? ?]|]; try done.
    destruct (item contact_data "phone") as [[p|? ?]|]; try done.
    destruct (item contact_data "email") as [[e|? ?]|]; try done.
    case_match eqn:E; [|done]. intros [= -> -> ->].
    rewrite !andb_true_iff, !negb_true_iff in E. naive_solver.
  - intros (-> & -> & -> & Hn & He & Hp).
    by rewrite Hn, He, Hp, (good_phone_nonblank phone Hp), (good_email_nonblank email He).
Qed.

Lemma create_loop_acc (records : list (string * pydict)) :
  ∀ acc w,
    ContactService.create_loop records acc w
    = match ContactService.create_loop records [] w with
      | (inl e, w') => (inl e, w')
      | (inr rs, w') => (inr (acc ++ rs), w')
      end.
Proof.
  induction records as [|[u d] records IH]; intros acc w; simpl.
  - unfold mret, Svc_ret, svc_ret. by rewrite app_nil_r.
  - unfold mbind, Svc_bind, svc_bind.
    destruct (ContactService.create_one u d w) as [[e|r] w1]; [done|].
    rewrite (IH (acc ++ [r])), (IH ([] ++ [r])).
    destruct (ContactService.create_loop records [] w1) as [[e|rs] w2]; [done|].
    by rewrite <-app_assoc.
Qed.

(** X14: [create_contacts] handles its records one after the other and
    stops at the first it rejects: on two lists in a row it does what it
    does on the first and then, unless that raised, on the second from the
    state the first left; the contacts created before an error stay. *)
Theorem create_contacts_app (l1 l2 : list (string * pydict)) (w : World) :
  ContactService.create_contacts (l1 ++ l2) w
  = match ContactService.create_contacts l1 w with
    | (inl e, w1) => (inl e, w1)
    | (inr rs1, w1) =>
        match ContactService.create_contacts l2 w1 with
        | (inl e, w2) => (inl e, w2)
        | (inr rs2, w2) => (inr (rs1 ++ rs2), w2)
        end
    end.
Proof.
  unfold ContactService.create_contacts. revert w.
  induction l1 as [|[u d] l1 IH]; intros w; simpl.
  - unfold mret, Svc_ret, svc_ret.
    by destruct (ContactService.create_loop l2 [] w) as [[e|rs] w2].
  - unfold mbind, Svc_bind, svc_bind.
    destruct (ContactService.create_one u d w) as [[e|r] w1]; [done|].
    rewrite (create_loop_acc (l1 ++ l2)), (create_loop_acc l1), IH.
    destruct (ContactService.create_loop l1 [] w1) as [[e|rs1] w2]; [done|].
    destruct (ContactService.create_loop l2 [] w2) as [[e|rs2] w3]; [done|].
    by rewrite app_assoc.
Qed.

(** X15: [create_contacts] on one record whose name, phone and e-mail are
    strings, the name non-blank, the e-mail and the phone accepted, stores
    exactly what the store's [create] stores for these three strings and
    returns that contact; on any other record it raises [ValueError] and
    leaves the store as it was. *)
Theorem create_contacts_record (uuid4 : string) (contact_data : pydict) (w : World) :
  (∀ name phone email,
      item contact_data "name" = Some (PStr name) →
      item contact_data "phone" = Some (PStr phone) →
      item contact_data "email" = Some (PStr email) →
      nonblank name = true →
      ContactService.bad_email email = false →
      ContactService.bad_phone phone = false →
      ∃ r w', create uuid4 name phone email w = inr (r, w')
              ∧ ContactService.create_contacts [(uuid4, contact_data)] w = (inr [r], w'))
  ∧ ((¬ ∃ name phone email,
          item contact_data "name" = Some (PStr name)
          ∧ item contact_data "phone" = Some (PStr phone)
          ∧ item contact_data "email" = Some (PStr email)
          ∧ nonblank name = true
          ∧ ContactService.bad_email email = false
          ∧ ContactService.bad_phone phone = false) →
     ∃ msg, ContactService.create_contacts [(uuid4, contact_data)] w
            = (inl (ValueError msg), w)).
Proof.
  pose proof (create_one_eq uuid4 contact_data w) as H1.
  unfold contact_of_record in H1. simpl in H1.
  unfold ContactService.create_contacts. simpl. split.
  - intros n p e Hn Hp He Hnb Hbe Hbp.
    rewrite (proj2 (valid_record_iff contact_data n p e)) in H1 by done.
    rewrite create_eq. eexists _, _. split; [done|].
    by rewrite (svc_bind_inr _ _ _ _ _ H1).
  - intros Hnot. destruct (valid_record contact_data) as [[[n p] e]|] eqn:E.
    + exfalso. apply Hnot. exists n, p, e. by apply valid_record_iff.
    + destruct H1 as (msg & H1). exists msg. by rewrite (svc_bind_inl _ _ _ _ _ H1).
Qed.

Lemma create_contacts_record_witness :
  (∃ r w', create "id-3" "Dana Lee" "555-123-4567" "dana@x.com" two_contacts = inr (r, w')
           ∧ ContactService.create_contacts
               [("id-3", [("name", PStr "Dana Lee"); ("phone", PStr "555-123-4567");
                          ("email", PStr "dana@x.com")])] two_contacts
             = (inr [r], w'))
  ∧ ∃ msg, ContactService.create_contacts
             [("id-4", [("name", PStr "Eve"); ("phone", POther "5551234567" true);
                        ("email", PStr "eve@x.com")])] two_contacts
           = (inl (ValueError msg), two_contacts).
Proof.
  split.
  - apply (proj1 (create_contacts_record "id-3"
                    [("name", PStr "Dana Lee"); ("phone", PStr "555-123-4567");
                     ("email", PStr "dana@x.com")] two_contacts)); reflexivity.
  - apply (proj2 (create_contacts_record "id-4"
                    [("name", PStr "Eve"); ("phone", POther "5551234567" true);
                     ("email", PStr "eve@x.com")] two_contacts)).
    intros (n & p & e & _ & Hp & _). vm_compute in Hp. discriminate.
Defined.

(** ** [update_contacts] *)

Lemma item_Some_elem (d : pydict) (k : string) (v : pyval) :
  item d k = Some v → (k, v) ∈ d.
Proof.
  induction d as [|[k' v'] d IH]; simpl; [done|].
  destruct (String.eqb k' k) eqn:E.
  - apply String.eqb_eq in E as ->. intros [= ->]. left.
  - intros H. right. by apply IH.
Qed.

Lemma item_elem (d : pydict) (k : string) (v : pyval) :
  NoDup d.*1 → (k, v) ∈ d → item d k = Some v.
Proof.
  induction d as [|[k' v'] d IH]; simpl; [by intros _ ?%elem_of_nil|].
  intros [Hnot Hnd]%NoDup_cons [[= -> ->] | Hin]%elem_of_cons.
  - by rewrite String.eqb_refl.
  - destruct (String.eqb k' k) eqn:E; [|by apply IH].
    apply String.eqb_eq in E as ->. exfalso. apply Hnot.
    apply list_elem_of_fmap. by exists (k, v).
Qed.

Lemma strings_of_elem (fields : pydict) (kwargs : list (string * string)) :
  strings_of fields = Some kwargs →
  ∀ f v, (f, v) ∈ fields ↔ ∃ s, v = PStr s ∧ (f, s) ∈ kwargs.
Proof.
  revert kwargs. induction fields as [|[f' v'] fields IH]; intros kwargs; simpl.
  - intros [= <-] f v. split; [by intros ?%elem_of_nil | by intros (? & _ & ?%elem_of_nil)].
  - destruct v' as [s'|? ?]; [|done].
    destruct (strings_of fields) as [l|]; [|done]. simpl. intros [= <-] f v.
    rewrite elem_of_cons, (IH l eq_refl). split.
    + intros [[= -> ->] | (s & -> & Hin)]; [exists s'; split; [done | left] |].
      exists s. split; [done | by right].
    + intros (s & -> & [[= -> ->] | Hin]%elem_of_cons); [by left | right; eauto].
Qed.

Lemma valid_kwarg_field (f s : string) :
  valid_kwarg (f, s) = true →
  f ∈ ["name"; "phone"; "email"] ∧ nonblank s = true.
Proof.
  unfold valid_kwarg; simpl.
  destruct (String.eqb f "name") eqn:E1; [apply String.eqb_eq in E1 as ->; set_solver|].
  destruct (String.eqb f "phone") eqn:E2.
  { apply String.eqb_eq in E2 as ->. intros H%negb_true_iff.
    split; [set_solver | by apply good_phone_nonblank]. }
  destruct (String.eqb f "email") eqn:E3; [|done].
  apply String.eqb_eq in E3 as ->. intros H%negb_true_iff.
  split; [set_solver | by apply good_email_nonblank].
Qed.

Lemma check_items_ok (fields : pydict) (kwargs : list (string * string)) (w : World) :
  strings_of fields = Some kwargs → forallb valid_kwarg kwargs = true →
  ContactService.check_items fields w = (inr tt, w)
  ∧ ContactService.keywords fields w = (inr kwargs, w).
Proof.
  revert kwargs. induction fields as [|[f v] fields IH]; intros kwargs; simpl.
  - by intros [= <-] _.
  - destruct v as [s|? ?]; [|done].
    destruct (strings_of fields) as [l|]; [|done]. simpl. intros [= <-]. simpl.
    intros [Hv Hl]%andb_true_iff. destruct (valid_kwarg_field f s Hv) as [Hf Hs].
    rewrite bool_decide_eq_true_2 by done. simpl.
    rewrite (nonblank_true s Hs). destruct (IH l eq_refl Hl) as [-> Hk].
    split; [done|]. unfold mbind, Svc_bind, svc_bind, svc_ret. simpl. by rewrite Hk.
Qed.

Lemma check_items_passed (fields : pydict) (w : World) :
  (∃ kwargs, strings_of fields = Some kwargs
             ∧ ContactService.check_items fields w = (inr tt, w)
             ∧ ∀ f s, (f, s) ∈ kwargs → f ∈ ["name"; "phone"; "email"] ∧ nonblank s = true)
  ∨ ∃ msg, ContactService.check_items fields w = (inl (ValueError msg), w).
Proof.
  induction fields as [|[f v] fields IH]; simpl.
  - left. exists []. split_and!; [done..|]. by intros ? ? ?%elem_of_nil.
  - case_bool_decide as Hf; simpl; [|right; eauto].
    destruct v as [s|? ?]; simpl; [|right; eauto].
    case_bool_decide as Hs; [right; eauto|].
    destruct IH as [(l & Hl & Hc & Hall) | (msg & Hc)]; [|right; eauto].
    left. exists ((f, s) :: l). rewrite Hl. split_and!; [done..|].
    intros f' s' [[= -> ->] | Hin]%elem_of_cons; [|by apply Hall].
    split; [done|]. unfold nonblank. by rewrite bool_decide_eq_false_2.
Qed.

Lemma validate_update_fields_eq (fields : pydict) (w : World) :
  NoDup fields.*1 →
  match valid_fields fields with
  | Some kwargs =>
      ContactService._validate_update_fields fields w = (inr tt, w)
      ∧ ContactService.keywords fields w = (inr kwargs, w)
  | None => ∃ msg, ContactService._validate_update_fields fields w
                   = (inl (ValueError msg), w)
  end.
Proof.
  intros Hnd. unfold valid_fields, ContactService._validate_update_fields.
  destruct (check_items_passed fields w) as [(kwargs & Hk & Hc & Hall) | (msg & Hc)].
  - rewrite Hk. rewrite (svc_bind_inr _ _ _ _ _ Hc).
    assert (∀ f s, item fields f = Some (PStr s) → (f, s) ∈ kwargs) as Hitem.
    { intros f s Hi%item_Some_elem.
      apply (strings_of_elem _ _ Hk) in Hi as (s' & [= <-] & Hin). done. }
    assert (∀ f, item fields f = None ∨ ∃ s, item fields f = Some (PStr s)) as Hcases.
    { intros f. destruct (item fields f) as [v|] eqn:E; [|by left]. right.
      apply item_Some_elem, (strings_of_elem _ _ Hk) in E as (s & -> & _). eauto. }
    assert (∀ f s, (f, s) ∈ kwargs → item fields f = Some (PStr s)) as Hback.
    { intros f s Hin. apply item_elem; [done|].
      apply (strings_of_elem _ _ Hk). eauto. }
    destruct (forallb valid_kwarg kwargs) eqn:Hv.
    + split; [|by apply check_items_ok].
      rewrite forallb_forall in Hv.
      unfold has_key, getitem, ContactService._validate_email,
        ContactService._validate_phone, the_str,
        mbind, mret, Svc_bind, Svc_ret, svc_bind, svc_ret, svc_raise.
      destruct (Hcases "email") as [-> | (e & He)];
        destruct (Hcases "phone") as [-> | (p & Hp)]; simpl; try done.
      * rewrite Hp. simpl.
        specialize (Hv ("phone", p) (proj1 (list_elem_of_In _ _) (Hitem _ _ Hp))).
        unfold valid_kwarg in Hv. simpl in Hv. apply negb_true_iff in Hv. by rewrite Hv.
      * rewrite He. simpl.
        specialize (Hv ("email", e) (proj1 (list_elem_of_In _ _) (Hitem _ _ He))).
        unfold valid_kwarg in Hv. simpl in Hv. apply negb_true_iff in Hv. by rewrite Hv.
      * rewrite He, Hp. simpl.
        pose proof (Hv ("phone", p) (proj1 (list_elem_of_In _ _) (Hitem _ _ Hp))) as H1.
        pose proof (Hv ("email", e) (proj1 (list_elem_of_In _ _) (Hitem _ _ He))) as H2.
        unfold valid_kwarg in H1, H2. simpl in H1, H2.
        apply negb_true_iff in H1, H2. by rewrite H1, H2.
    + apply not_true_iff_false in Hv. rewrite forallb_forall in Hv.
      assert (∃ f s, (f, s) ∈ kwargs ∧ valid_kwarg (f, s) = false) as (f & s & Hin & Hbad).
      { clear -Hv. induction kwargs as [|[f s] kwargs IH].
        - exfalso. apply Hv. by intros ? [].
        - destruct (valid_kwarg (f, s)) eqn:E.
          + destruct IH as (f' & s' & Hin & Hbad).
            * intros Hall. apply Hv. intros x [<- | Hx]; [done | by apply Hall].
            * exists f', s'. split; [by right | done].
          + exists f, s. split; [left | done]. }
      destruct (Hall f s Hin) as [Hf Hnb]. pose proof (Hback f s Hin) as Hi.
      unfold has_key, getitem, ContactService._validate_email,
        ContactService._validate_phone, the_str,
        mbind, mret, Svc_bind, Svc_ret, svc_bind, svc_ret, svc_raise.
      unfold valid_kwarg in Hbad. simpl in Hbad.
      apply elem_of_cons in Hf as [-> | Hf]; [simpl in Hbad; congruence|].
      apply elem_of_cons in Hf as [-> | Hf].
      * simpl in Hbad. apply negb_false_iff in Hbad.
        destruct (Hcases "email") as [-> | (e & He)]; simpl.
        -- rewrite Hi. simpl. rewrite Hbad. eauto.
        -- rewrite He. simpl. destruct (ContactService.bad_email e); [eauto|].
           rewrite Hi. simpl. rewrite Hbad. eauto.
      * apply elem_of_cons in Hf as [-> | Hf]; [|by apply elem_of_nil in Hf].
        simpl in Hbad. apply negb_false_iff in Hbad.
        rewrite Hi. simpl. rewrite Hbad. eauto.
  - assert (strings_of fields = None ∨ ∃ kwargs, strings_of fields = Some kwargs
                                         ∧ forallb valid_kwarg kwargs = false) as Hnone.
    { destruct (strings_of fields) as [kwargs|] eqn:Hk; [|by left]. right.
      exists kwargs. split; [done|]. destruct (forallb valid_kwarg kwargs) eqn:Hv; [|done].
      destruct (check_items_ok fields kwargs w Hk Hv) as [Hc' _]. congruence. }
    destruct Hnone as [-> | (kwargs & -> & ->)];
      exists msg; by rewrite (svc_bind_inl _ _ _ _ _ Hc).
Qed.

Lemma fields_of_NoDup (update_data : pydict) :
  NoDup update_data.*1 → NoDup (fields_of update_data).*1.
Proof.
  intros Hnd. apply (sublist_NoDup _ update_data.*1); [done|].
  apply fmap_sublist. unfold fields_of. apply sublist_filter.
Qed.

Lemma valid_kwargs_field (kwargs : list (string * string)) :
  forallb valid_kwarg kwargs = true → field_kwargs kwargs = true.
Proof.
  unfold field_kwargs. rewrite !forallb_forall. intros H kv Hkv.
  specialize (H kv Hkv). unfold valid_kwarg in H.
  destruct (String.eqb kv.1 "name") eqn:E1; [by apply String.eqb_eq in E1 as ->|].
  destruct (String.eqb kv.1 "phone") eqn:E2; [by apply String.eqb_eq in E2 as ->|].
  destruct (String.eqb kv.1 "email") eqn:E3; [by apply String.eqb_eq in E3 as ->|done].
Qed.

Lemma valid_fields_plain (fields : pydict) (kwargs : list (string * string)) :
  valid_fields fields = Some kwargs → plain_kwargs kwargs = true.
Proof.
  unfold valid_fields. destruct (strings_of fields) as [l|]; [|done].
  destruct (forallb valid_kwarg l) eqn:E; [|done]. intros [= <-].
  by apply field_kwargs_plain, valid_kwargs_field.
Qed.

Lemma update_one_stored (update_data : pydict) (w : World) (i : string) (r : loc) :
  item update_data "id" = Some (PStr i) → _contacts w !! i = Some r →
  ContactService.update_one update_data w
  = ((if bool_decide (fields_of update_data ≠ [])
      then ContactService._validate_update_fields (fields_of update_data)
      else mret tt) ≫= λ _,
     ContactService.keywords (fields_of update_data) ≫= λ kwargs,
     call (update_contact i kwargs)) w.
Proof.
  intros Hid Hi. unfold ContactService.update_one, has_key, getitem. rewrite Hid. simpl.
  unfold mbind at 1, Svc_bind at 1, svc_bind at 1, svc_ret at 1.
  unfold mbind at 1, Svc_bind at 1, svc_bind at 1.
  unfold call at 1, get_contact, gets. rewrite Hi.
  fold (fields_of update_data).
  unfold mbind, Svc_bind, svc_bind, the_str, svc_ret.
  by destruct ((if bool_decide (fields_of update_data ≠ [])
                then ContactService._validate_update_fields (fields_of update_data)
                else mret ()) w) as [[e|[]] w1].
Qed.

Lemma update_one_eq (update_data : pydict) (w : World) :
  NoDup update_data.*1 →
  match item update_data "id" with
  | None =>
      ContactService.update_one update_data w
      = (inl (ValueError "Contact ID is required for update"), w)
  | Some (POther shown false) =>
      ContactService.update_one update_data w = (inl TypeError, w)
  | Some (POther shown true) =>
      ContactService.update_one update_data w
      = (inl (ValueError ("Contact with ID " +:+ shown +:+ " not found")), w)
  | Some (PStr i) =>
      match _contacts w !! i with
      | None =>
          ContactService.update_one update_data w
          = (inl (ValueError ("Contact with ID " +:+ i +:+ " not found")), w)
      | Some r =>
          match valid_fields (fields_of update_data) with
          | Some kwargs =>
              ContactService.update_one update_data w
              = (inr (Some r), updated r kwargs w)
          | None =>
              ∃ msg, ContactService.update_one update_data w = (inl (ValueError msg), w)
          end
      end
  end.
Proof.
  intros Hnd.
  destruct (item update_data "id") as [[i|shown [|]]|] eqn:Eid.
  - destruct (_contacts w !! i) as [r|] eqn:Ei.
    + rewrite (update_one_stored update_data w i r Eid Ei).
      pose proof (validate_update_fields_eq (fields_of update_data) w
                    (fields_of_NoDup _ Hnd)) as Hv.
      destruct (valid_fields (fields_of update_data)) as [kwargs|] eqn:Evf.
      * destruct Hv as [Hv Hk].
        assert ((if bool_decide (fields_of update_data ≠ [])
                 then ContactService._validate_update_fields (fields_of update_data)
                 else mret ()) w = (inr tt, w)) as Hif by by case_bool_decide.
        rewrite (svc_bind_inr _ _ _ _ _ Hif), (svc_bind_inr _ _ _ _ _ Hk).
        unfold call. by rewrite update_contact_eq, Ei by by apply (valid_fields_plain _ _ Evf).
      * destruct Hv as (msg & Hv). exists msg.
        assert (fields_of update_data ≠ []) as Hne.
        { intros Hnil. by rewrite Hnil in Evf. }
        rewrite bool_decide_eq_true_2 by done.
        by rewrite (svc_bind_inl _ _ _ _ _ Hv).
    + unfold ContactService.update_one, has_key, getitem. rewrite Eid. simpl.
      unfold mbind, Svc_bind, svc_bind, svc_ret, call, get_contact, gets.
      by rewrite Ei.
  - unfold ContactService.update_one, has_key, getitem. by rewrite Eid.
  - unfold ContactService.update_one, has_key, getitem. by rewrite Eid.
  - unfold ContactService.update_one, has_key, getitem. by rewrite Eid.
Qed.

Lemma update_loop_acc (update_data_list : list pydict) :
  ∀ acc w,
    ContactService.update_loop update_data_list acc w
    = match ContactService.update_loop update_data_list [] w with
      | (inl e, w') => (inl e, w')
      | (inr rs, w') => (inr (acc ++ rs), w')
      end.
Proof.
  induction update_data_list as [|d l IH]; intros acc w; simpl.
  - unfold mret, Svc_ret, svc_ret. by rewrite app_nil_r.
  - unfold mbind, Svc_bind, svc_bind.
    destruct (ContactService.update_one d w) as [[e|[r|]] w1]; [done|..].
    + rewrite (IH (acc ++ [r])), (IH ([] ++ [r])).
      destruct (ContactService.update_loop l [] w1) as [[e|rs] w2]; [done|].
      by rewrite <-app_assoc.
    + by rewrite (IH acc).
Qed.

(** X16: [update_contacts] handles its items one after the other and stops
    at the first that fails: on two lists in a row it does what it does on
    the first and then, unless that raised, on the second from the state
    the first left; the updates applied before an error stay. *)
Theorem update_contacts_app (l1 l2 : list pydict) (w : World) :
  ContactService.update_contacts (l1 ++ l2) w
  = match ContactService.update_contacts l1 w with
    | (inl e, w1) => (inl e, w1)
    | (inr rs1, w1) =>
        match ContactService.update_contacts l2 w1 with
        | (inl e, w2) => (inl e, w2)
        | (inr rs2, w2) => (inr (rs1 ++ rs2), w2)
        end
    end.
Proof.
  unfold ContactService.update_contacts. revert w.
  induction l1 as [|d l1 IH]; intros w; simpl.
  - unfold mret, Svc_ret, svc_ret.
    by destruct (ContactService.update_loop l2 [] w) as [[e|rs] w2].
  - unfold mbind, Svc_bind, svc_bind.
    destruct (ContactService.update_one d w) as [[e|[r|]] w1]; [done|..].
    + rewrite (update_loop_acc (l1 ++ l2)), (update_loop_acc l1), IH.
      destruct (ContactService.update_loop l1 [] w1) as [[e|rs1] w2]; [done|].
      destruct (ContactService.update_loop l2 [] w2) as [[e|rs2] w3]; [done|].
      by rewrite app_assoc.
    + apply IH.
Qed.

(** X17: [update_contacts] on one item, a dictionary: without an ['id'] it
    raises [ValueError]; with an id that is not a stored id (a string that
    is no key of the primary map, or a hashable value that is no string) it
    raises [ValueError] naming the id; in both cases, and when a field
    other than the id is not name, phone or e-mail or has a value the
    service rejects, the store is left as it was. With a stored id and
    accepted fields it does exactly what the store's [update] does with
    these fields and returns that contact. *)
Theorem update_contacts_item (update_data : pydict) (w : World) :
  NoDup update_data.*1 →
  (item update_data "id" = None →
   ContactService.update_contacts [update_data] w
   = (inl (ValueError "Contact ID is required for update"), w))
  ∧ (∀ i, item update_data "id" = Some (PStr i) → _contacts w !! i = None →
       ContactService.update_contacts [update_data] w
       = (inl (ValueError ("Contact with ID " +:+ i +:+ " not found")), w))
  ∧ (∀ shown, item update_data "id" = Some (POther shown true) →
       ContactService.update_contacts [update_data] w
       = (inl (ValueError ("Contact with ID " +:+ shown +:+ " not found")), w))
  ∧ (∀ shown, item update_data "id" = Some (POther shown false) →
       ContactService.update_contacts [update_data] w = (inl TypeError, w))
  ∧ (∀ i r, item update_data "id" = Some (PStr i) → _contacts w !! i = Some r →
       valid_fields (fields_of update_data) = None →
       ∃ msg, ContactService.update_contacts [update_data] w = (inl (ValueError msg), w))
  ∧ (∀ i r kwargs, item update_data "id" = Some (PStr i) → _contacts w !! i = Some r →
       valid_fields (fields_of update_data) = Some kwargs →
       ∃ w', update_contact i kwargs w = inr (Some r, w')
             ∧ ContactService.update_contacts [update_data] w = (inr [r], w')).
Proof.
  intros Hnd. pose proof (update_one_eq update_data w Hnd) as H1.
  unfold ContactService.update_contacts. simpl. split_and!.
  - intros Hid. rewrite Hid in H1. by rewrite (svc_bind_inl _ _ _ _ _ H1).
  - intros i Hid Hi. rewrite Hid, Hi in H1. by rewrite (svc_bind_inl _ _ _ _ _ H1).
  - intros shown Hid. rewrite Hid in H1. by rewrite (svc_bind_inl _ _ _ _ _ H1).
  - intros shown Hid. rewrite Hid in H1. by rewrite (svc_bind_inl _ _ _ _ _ H1).
  - intros i r Hid Hi Hv. rewrite Hid, Hi, Hv in H1. destruct H1 as (msg & H1).
    exists msg. by rewrite (svc_bind_inl _ _ _ _ _ H1).
  - intros i r kwargs Hid Hi Hv. rewrite Hid, Hi, Hv in H1.
    exists (updated r kwargs w).
    rewrite update_contact_eq, Hi by by apply (valid_fields_plain _ _ Hv). split; [done|].
    by rewrite (svc_bind_inr _ _ _ _ _ H1).
Qed.

Lemma update_contacts_item_witness :
  ContactService.update_contacts [[("id", PStr "id-7"); ("name", PStr "Zed")]] two_contacts
  = (inl (ValueError "Contact with ID id-7 not found"), two_contacts)
  ∧ (∃ msg, ContactService.update_contacts
              [[("id", PStr "id-1"); ("phone", PStr "12345")]] two_contacts
            = (inl (ValueError msg), two_contacts))
  ∧ ∃ w', update_contact "id-1" [("phone", "(999) 999-9999")] two_contacts
          = inr (Some 0, w')
          ∧ ContactService.update_contacts
              [[("id", PStr "id-1"); ("phone", PStr "(999) 999-9999")]] two_contacts
            = (inr [0], w').
Proof.
  split_and!.
  - destruct (update_contacts_item [("id", PStr "id-7"); ("name", PStr "Zed")]
                two_contacts) as (_ & H & _); [compute_done|].
    apply (H "id-7"); [reflexivity | vm_compute; reflexivity].
  - destruct (update_contacts_item [("id", PStr "id-1"); ("phone", PStr "12345")]
                two_contacts) as (_ & _ & _ & _ & H & _); [compute_done|].
    apply (H "id-1" 0); [reflexivity | vm_compute; reflexivity | vm_compute; reflexivity].
  - destruct (update_contacts_item [("id", PStr "id-1"); ("phone", PStr "(999) 999-9999")]
                two_contacts) as (_ & _ & _ & _ & _ & H); [compute_done|].
    apply (H "id-1" 0); [reflexivity | vm_compute; reflexivity | vm_compute; reflexivity].
Defined.

(** ** [delete_contacts] *)

Lemma delete_loop_spec (contact_ids : list string) :
  ∀ count w,
    ∃ w', ContactService.delete_loop contact_ids count w
          = (inr (count + size (dom (_contacts w) ∩ list_to_set contact_ids)), w')
          ∧ heap w' = heap w
          ∧ ∀ j, _contacts w' !! j
                 = if decide (j ∈ contact_ids) then None else _contacts w !! j.
Proof.
  induction contact_ids as [|i ids IH]; intros count w; simpl.
  - exists w. split_and!; [|done|].
    + unfold mret, Svc_ret, svc_ret. do 2 f_equal.
      change (list_to_set [] : gset string) with (∅ : gset string).
      rewrite intersection_empty_r_L, size_empty. lia.
    + intros j. by destruct (decide (j ∈ [])) as [H%elem_of_nil|].
  - pose proof (delete_contact_eq i w) as Hd.
    destruct (_contacts w !! i) as [r|] eqn:Ei.
    + rewrite (svc_bind_inr _ _ _ _ _ (call_inr _ _ _ _ Hd)).
      fold (deleted i r w).
      destruct (IH (count + 1) (deleted i r w)) as (w' & -> & Hheap & Hlook).
      exists w'. split_and!; [|done|].
      * do 2 f_equal. simpl. rewrite dom_delete_L.
        assert (dom (_contacts w) ∩ ({[i]} ∪ list_to_set ids)
                = {[i]} ∪ (dom (_contacts w) ∖ {[i]}) ∩ list_to_set ids) as ->.
        { apply elem_of_dom_2 in Ei. apply set_eq. intros j.
          destruct (decide (j = i)) as [->|]; set_solver. }
        rewrite (size_union (C:=gset string) {[i]}
                   ((dom (_contacts w) ∖ {[i]}) ∩ list_to_set ids)) by set_solver.
        rewrite size_singleton. lia.
      * intros j. rewrite Hlook. simpl. destruct (decide (j = i)) as [->|Hne].
        -- rewrite lookup_delete_eq. rewrite (decide_True _ _ (list_elem_of_here _ _)).
           by case_decide.
        -- rewrite lookup_delete_ne by done.
           repeat case_decide; set_solver.
    + rewrite (svc_bind_inr _ _ _ _ _ (call_inr _ _ _ _ Hd)).
      destruct (IH count w) as (w' & -> & Hheap & Hlook).
      exists w'. split_and!; [|done|].
      * do 2 f_equal.
        assert (dom (_contacts w) ∩ ({[i]} ∪ list_to_set ids)
                = dom (_contacts w) ∩ list_to_set ids) as ->; [|done].
        apply not_elem_of_dom in Ei. set_solver.
      * intros j. rewrite Hlook. destruct (decide (j = i)) as [->|Hne].
        -- rewrite Ei. by repeat case_decide.
        -- repeat case_decide; set_solver.
Qed.

(** X18: [delete_contacts] never raises; it returns the number of distinct
    ids of the list that were keys of the primary map (an unknown id, or a
    second occurrence of an id, counts for nothing); afterwards no id of
    the list is a key, every other key leads where it did, and the contact
    objects are as before. *)
Theorem delete_contacts_count (contact_ids : list string) (w : World) :
  ∃ w', ContactService.delete_contacts contact_ids w
        = (inr (size (dom (_contacts w) ∩ list_to_set contact_ids)), w')
        ∧ heap w' = heap w
        ∧ ∀ j, _contacts w' !! j
               = if decide (j ∈ contact_ids) then None else _contacts w !! j.
Proof. apply (delete_loop_spec contact_ids 0 w). Qed.

(** ** [search_contacts] of the service *)

Lemma service_search_eq (query : string) (w : World) :
  ∃ rs, search_contacts query w = inr (rs, w)
        ∧ ContactService.search_contacts query w = (inr rs, w).
Proof.
  unfold ContactService.search_contacts. rewrite search_contacts_eq.
  eexists. split; [done|].
  destruct (bool_decide (query = EmptyString) || bool_decide (py_strip query = EmptyString))
    eqn:E.
  - assert (py_strip query = EmptyString) as Hs.
    { apply orb_true_iff in E as [->%bool_decide_eq_true | H%bool_decide_eq_true]; done. }
    apply strip_empty_iff in Hs. rewrite <-all_space_lower in Hs.
    apply strip_all_space in Hs. by rewrite bool_decide_eq_true_2.
  - unfold call. by rewrite search_contacts_eq.
Qed.

(** X19: the service's own test for an empty query changes nothing: for
    every query its [search_contacts] returns what the store's returns, and
    never raises. *)
Theorem service_search_is_store_search (query : string) (w : World) :
  ∃ rs, search_contacts query w = inr (rs, w)
        ∧ ContactService.search_contacts query w = (inr rs, w).
Proof. apply service_search_eq. Qed.

(** ** What the service lets into the store *)

Lemma all_valid_in_heap (w : World) (i : string) (r : loc) :
  all_valid w → _contacts w !! i = Some r → r < length (heap w).
Proof.
  intros Hall Hi. destruct (decide (r < length (heap w))) as [|Hge]; [done|].
  specialize (Hall i r Hi). unfold deref in Hall.
  rewrite list_lookup_total_alt, lookup_ge_None_2 in Hall by lia. done.
Qed.

Lemma valid_update_field (c : Contact.t) (kv : string * string) :
  valid_contact c = true → valid_kwarg kv = true →
  valid_contact (Contact.set_field c kv) = true.
Proof.
  destruct kv as [f s]. unfold valid_contact, valid_kwarg. simpl.
  intros [[Hn He]%andb_true_iff Hp]%andb_true_iff.
  destruct (String.eqb f "name") eqn:E1.
  { apply String.eqb_eq in E1 as ->. intros Hs. simpl. by rewrite Hs, He, Hp. }
  destruct (String.eqb f "phone") eqn:E2.
  { apply String.eqb_eq in E2 as ->. intros Hs. simpl. by rewrite Hn, He, Hs. }
  destruct (String.eqb f "email") eqn:E3; [|done].
  apply String.eqb_eq in E3 as ->. intros Hs. simpl. by rewrite Hn, Hs, Hp.
Qed.

Lemma valid_update_fields (kwargs : list (string * string)) :
  ∀ c, valid_contact c = true → forallb valid_kwarg kwargs = true →
       valid_contact (Contact.set_fields c kwargs) = true.
Proof.
  unfold Contact.set_fields.
  induction kwargs as [|kv kwargs IH]; intros c Hc; simpl; [done|].
  intros [Hkv Hrest]%andb_true_iff. apply IH; [|done]. by apply valid_update_field.
Qed.

Lemma all_valid_created (c : Contact.t) (w : World) :
  all_valid w → valid_contact c = true → all_valid (created c w).
Proof.
  intros Hall Hc j r Hj. simpl in Hj.
  apply lookup_insert_Some in Hj as [[_ <-] | [_ Hj]].
  - change (deref (length (heap w)) (created c w))
      with (deref (length (heap w)) (set_heap (λ h, h ++ [c]) w)).
    by rewrite deref_new.
  - unfold deref; simpl. rewrite lookup_total_app_l by by apply (all_valid_in_heap w j).
    by apply (Hall j).
Qed.

Lemma all_valid_updated (i : string) (r : loc) (kwargs : list (string * string)) (w : World) :
  all_valid w → _contacts w !! i = Some r → forallb valid_kwarg kwargs = true →
  all_valid (updated r kwargs w).
Proof.
  intros Hall Hi Hk j r' Hj. change (_contacts w !! j = Some r') in Hj.
  rewrite deref_updated. case_decide as Hd.
  - apply valid_update_fields; [by apply (Hall i) | done].
  - by apply (Hall j).
Qed.

Lemma all_valid_deleted (i : string) (r : loc) (w : World) :
  all_valid w → all_valid (deleted i r w).
Proof.
  intros Hall j r' Hj. simpl in Hj. apply lookup_delete_Some in Hj as [_ Hj].
  by apply (Hall j).
Qed.

Lemma all_valid_create_loop (records : list (string * pydict)) :
  ∀ acc w, all_valid w → all_valid (ContactService.create_loop records acc w).2.
Proof.
  induction records as [|[u d] records IH]; intros acc w Hall; simpl; [done|].
  pose proof (create_one_eq u d w) as H1. unfold contact_of_record in H1. simpl in H1.
  destruct (valid_record d) as [[[n p] e]|] eqn:E.
  - rewrite (svc_bind_inr _ _ _ _ _ H1). apply IH, all_valid_created; [done|].
    apply valid_record_iff in E as (_ & _ & _ & Hn & He & Hp).
    unfold valid_contact. simpl. by rewrite Hn, He, Hp.
  - destruct H1 as (msg & H1). by rewrite (svc_bind_inl _ _ _ _ _ H1).
Qed.

Lemma valid_fields_kwargs (fields : pydict) (kwargs : list (string * string)) :
  valid_fields fields = Some kwargs → forallb valid_kwarg kwargs = true.
Proof.
  unfold valid_fields. destruct (strings_of fields) as [l|]; [|done].
  destruct (forallb valid_kwarg l) eqn:E; [|done]. by intros [= <-].
Qed.

Lemma all_valid_update_one (update_data : pydict) (w : World) :
  NoDup update_data.*1 → all_valid w →
  all_valid (ContactService.update_one update_data w).2.
Proof.
  intros Hnd Hall. pose proof (update_one_eq update_data w Hnd) as H1.
  destruct (item update_data "id") as [[i|shown [|]]|]; try by rewrite H1.
  destruct (_contacts w !! i) as [r|] eqn:Ei; [|by rewrite H1].
  destruct (valid_fields (fields_of update_data)) as [kwargs|] eqn:Ev.
  - rewrite H1. simpl. apply (all_valid_updated i); [done..|].
    by apply (valid_fields_kwargs (fields_of update_data)).
  - destruct H1 as (msg & ->). done.
Qed.

Lemma all_valid_update_loop (update_data_list : list pydict) :
  ∀ acc w, Forall (λ d : pydict, NoDup d.*1) update_data_list → all_valid w →
           all_valid (ContactService.update_loop update_data_list acc w).2.
Proof.
  induction update_data_list as [|d l IH]; intros acc w Hnd Hall; simpl; [done|].
  apply Forall_cons in Hnd as [Hd Hl].
  pose proof (all_valid_update_one d w Hd Hall) as H1.
  unfold mbind, Svc_bind, svc_bind.
  destruct (ContactService.update_one d w) as [[e|[r|]] w1]; [done|..]; by apply IH.
Qed.

Lemma all_valid_delete_loop (contact_ids : list string) :
  ∀ count w, all_valid w → all_valid (ContactService.delete_loop contact_ids count w).2.
Proof.
  induction contact_ids as [|i ids IH]; intros count w Hall; simpl; [done|].
  pose proof (delete_contact_eq i w) as Hd.
  destruct (_contacts w !! i) as [r|] eqn:Ei;
    rewrite (svc_bind_inr _ _ _ _ _ (call_inr _ _ _ _ Hd)); apply IH; [|done].
  by apply all_valid_deleted.
Qed.

Lemma all_valid_serve (rq : request) (w : World) :
  well_formed rq → all_valid w → all_valid (serve rq w).
Proof.
  destruct rq as [l | l | l | q]; simpl; intros Hwf Hall.
  - by apply all_valid_create_loop.
  - by apply all_valid_update_loop.
  - by apply all_valid_delete_loop.
  - destruct (service_search_eq q w) as (rs & _ & ->). done.
Qed.

(** X20: whatever requests the service gets (their update dictionaries
    having distinct keys), and whether they return or raise, every contact
    in the store has a non-blank name, an e-mail that [_validate_email]
    accepts and a phone that [_validate_phone] accepts. *)
Theorem service_keeps_contacts_valid (rqs : list request) :
  Forall well_formed rqs →
  ∀ i r, _contacts (serve_all rqs empty_store) !! i = Some r →
         nonblank (Contact.name (deref r (serve_all rqs empty_store))) = true
         ∧ ContactService.bad_email (Contact.email (deref r (serve_all rqs empty_store)))
           = false
         ∧ ContactService.bad_phone (Contact.phone (deref r (serve_all rqs empty_store)))
           = false.
Proof.
  intros Hwf.
  assert (all_valid (serve_all rqs empty_store)) as Hall.
  { unfold serve_all.
    assert (all_valid empty_store) as H0.
    { intros i r H. simpl in H. by rewrite lookup_empty in H. }
    revert H0. generalize empty_store.
    induction Hwf as [|rq rqs Hrq Hrqs IH]; intros w Hw; simpl; [done|].
    by apply IH, all_valid_serve. }
  intros i r Hi. specialize (Hall i r Hi). unfold valid_contact in Hall.
  rewrite !andb_true_iff, !negb_true_iff in Hall. naive_solver.
Qed.

Lemma service_keeps_contacts_valid_witness :
  nonblank (Contact.name (deref 0 (serve_all demo_requests empty_store))) = true
  ∧ ContactService.bad_email
      (Contact.email (deref 0 (serve_all demo_requests empty_store))) = false
  ∧ ContactService.bad_phone
      (Contact.phone (deref 0 (serve_all demo_requests empty_store))) = false.
Proof.
  apply (service_keeps_contacts_valid demo_requests) with (i := "id-1").
  - unfold demo_requests. repeat (apply Forall_cons; split); try apply Forall_nil; try done.
    compute_done.
  - vm_compute. reflexivity.
Defined.

(** ** The states the service leaves are states of the store *)

Lemma trace_create_loop (records : list (string * pydict)) :
  ∀ acc w, ∃ ops, (ContactService.create_loop records acc w).2
                  = foldl (λ w o, next o w) w ops
                  ∧ created_ids ops `sublist_of` records.*1
                  ∧ plain_ops ops = true.
Proof.
  induction records as [|[u d] records IH]; intros acc w; simpl.
  { exists []. by split_and!. }
  pose proof (create_one_eq u d w) as H1. unfold contact_of_record in H1. simpl in H1.
  destruct (valid_record d) as [[[n p] e]|].
  - rewrite (svc_bind_inr _ _ _ _ _ H1).
    destruct (IH (acc ++ [length (heap w)]) (created (Contact.mk n p e u) w))
      as (ops & -> & Hsub & Hall).
    exists (Create u n p e :: ops). split_and!; [done | | done].
    rewrite created_ids_cons. simpl. by apply sublist_skip.
  - destruct H1 as (msg & H1). rewrite (svc_bind_inl _ _ _ _ _ H1).
    exists []. split_and!; [done | apply sublist_nil_l | done].
Qed.

Lemma trace_update_loop (update_data_list : list pydict) :
  ∀ acc w, Forall (λ d : pydict, NoDup d.*1) update_data_list →
           ∃ ops, (ContactService.update_loop update_data_list acc w).2
                  = foldl (λ w o, next o w) w ops
                  ∧ created_ids ops = []
                  ∧ plain_ops ops = true.
Proof.
  induction update_data_list as [|d l IH]; intros acc w Hnd; simpl.
  { by exists []. }
  apply Forall_cons in Hnd as [Hd Hl].
  pose proof (update_one_eq d w Hd) as H1.
  assert (∃ ops res, ContactService.update_one d w
                     = (res, foldl (λ w o, next o w) w ops)
                     ∧ created_ids ops = []
                     ∧ plain_ops ops = true) as (ops & res & H2 & Hc & Hpl).
  { destruct (item d "id") as [[i|shown [|]]|];
      try (exists []; eexists; split_and!; [exact H1 | done | done]).
    destruct (_contacts w !! i) as [r|] eqn:Ei;
      [|exists []; eexists; split_and!; [exact H1 | done | done]].
    destruct (valid_fields (fields_of d)) as [kwargs|] eqn:Evf.
    - exists [Update i kwargs]. eexists. split_and!; [|done |].
      + rewrite H1. simpl. by rewrite Ei.
      + simpl. by rewrite (valid_fields_plain _ _ Evf).
    - destruct H1 as (msg & H1).
      exists []; eexists; split_and!; [exact H1 | done | done]. }
  unfold mbind, Svc_bind, svc_bind. rewrite H2.
  destruct res as [e|[r|]].
  - exists ops. by split_and!.
  - destruct (IH (acc ++ [r]) (foldl (λ w o, next o w) w ops) Hl)
      as (ops' & -> & Hc' & Hpl').
    exists (ops ++ ops'). rewrite foldl_app. split_and!; [done | |].
    + unfold created_ids in *. by rewrite omap_app, Hc, Hc'.
    + unfold plain_ops in *. by rewrite forallb_app, Hpl, Hpl'.
  - destruct (IH acc (foldl (λ w o, next o w) w ops) Hl) as (ops' & -> & Hc' & Hpl').
    exists (ops ++ ops'). rewrite foldl_app. split_and!; [done | |].
    + unfold created_ids in *. by rewrite omap_app, Hc, Hc'.
    + unfold plain_ops in *. by rewrite forallb_app, Hpl, Hpl'.
Qed.

Lemma trace_delete_loop (contact_ids : list string) :
  ∀ count w, ∃ ops, (ContactService.delete_loop contact_ids count w).2
                    = foldl (λ w o, next o w) w ops
                    ∧ created_ids ops = []
                    ∧ plain_ops ops = true.
Proof.
  induction contact_ids as [|i ids IH]; intros count w; simpl.
  { by exists []. }
  pose proof (delete_contact_eq i w) as Hd.
  assert (∃ b, delete_contact i w = inr (b, next (Delete i) w)) as (b & Hb).
  { simpl. destruct (_contacts w !! i); eauto. }
  rewrite (svc_bind_inr _ _ _ _ _ (call_inr _ _ _ _ Hb)).
  destruct (IH (if b then count + 1 else count) (next (Delete i) w))
    as (ops & -> & Hc & Hpl).
  exists (Delete i :: ops). split_and!; [done | by rewrite created_ids_cons, Hc | done].
Qed.

Lemma trace_serve (rq : request) (w : World) :
  well_formed rq →
  ∃ ops, serve rq w = foldl (λ w o, next o w) w ops
         ∧ created_ids ops `sublist_of` drawn_ids rq
         ∧ plain_ops ops = true.
Proof.
  destruct rq as [l | l | l | q]; simpl; intros Hwf.
  - destruct (trace_create_loop l [] w) as (ops & H & Hsub & Hpl). eauto.
  - destruct (trace_update_loop l [] w Hwf) as (ops & H & Hc & Hpl).
    exists ops. by rewrite Hc.
  - destruct (trace_delete_loop l 0 w) as (ops & H & Hc & Hpl).
    exists ops. by rewrite Hc.
  - exists []. destruct (service_search_eq q w) as (rs & _ & ->). done.
Qed.

(** X21: every state the service leaves, after any requests (their update
    dictionaries having distinct keys, the drawn ids pairwise distinct),
    whether they returned or raised, is a state of the store reached by
    creations, updates and deletions from the empty store; so the index
    invariant and what holds in reachable states hold behind the service. *)
Theorem service_states_reachable (rqs : list request) :
  Forall well_formed rqs → NoDup (concat (drawn_ids <$> rqs)) →
  reachable (serve_all rqs empty_store)
  ∧ index_sound (serve_all rqs empty_store)
  ∧ reachable_by_name (serve_all rqs empty_store).
Proof.
  intros Hwf Hnd.
  assert (∀ w, ∃ ops, serve_all rqs w = foldl (λ w o, next o w) w ops
                      ∧ created_ids ops `sublist_of` concat (drawn_ids <$> rqs)
                      ∧ plain_ops ops = true)
    as Htrace.
  { unfold serve_all. clear Hnd.
    induction Hwf as [|rq rqs Hrq Hrqs IH]; intros w; simpl.
    - exists []. by split_and!.
    - destruct (trace_serve rq w Hrq) as (ops1 & -> & Hs1 & Hp1).
      destruct (IH (foldl (λ w o, next o w) w ops1)) as (ops2 & -> & Hs2 & Hp2).
      exists (ops1 ++ ops2). rewrite foldl_app. split_and!; [done | |].
      + unfold created_ids in *. rewrite omap_app. by apply sublist_app.
      + unfold plain_ops in *. by rewrite forallb_app, Hp1, Hp2. }
  destruct (Htrace empty_store) as (ops & Hs & Hsub & Hpl).
  assert (reachable (serve_all rqs empty_store)) as Hr.
  { exists ops. split; [by apply (sublist_NoDup _ _ Hnd)|]. by rewrite exec_eq, Hs. }
  split; [done|]. apply reachable_Inv in Hr.
  split; [by apply Inv_index_sound | by apply Inv_reachable_by_name].
Qed.

Lemma service_states_reachable_witness :
  reachable (serve_all demo_requests empty_store)
  ∧ index_sound (serve_all demo_requests empty_store)
  ∧ reachable_by_name (serve_all demo_requests empty_store).
Proof.
  apply (service_states_reachable demo_requests).
  - unfold demo_requests. repeat (apply Forall_cons; split); try apply Forall_nil; try done.
    compute_done.
  - compute_done.
Defined.
